(** * ACE-Step handler utility modules: a shallow embedding and its contract

    The two leaf modules of [acestep.handler_modules] are embedded here:

    - [audio_utils.py]: [is_silence], [normalize_audio_to_stereo_48k],
      [normalize_audio_code_hints], [normalize_instructions], [pad_sequences];
    - [metadata_builder.py]: [create_default_meta], [dict_to_meta_string],
      [build_metadata_dict], [extract_caption_and_language].

    Python values are a tagged union [pyval]; a [dict] with string keys is a
    [gmap string pyval]; a raised exception is the [Raise] branch of [result].
    Part I holds the definitions, Part II the theorems. *)

From Stdlib Require Import ZArith QArith Qabs Qcanon Qcabs Qpower Lqa
  Floats.SpecFloat Ascii Numbers.DecimalString.
From stdpp Require Import gmap strings list fin_maps.

Set Warnings "-register-all".

(** ** Part I. The embedding *)

(** *** Python values, exceptions and the built-ins the modules call *)

Module Py.

(** The values the handler helpers receive.  [PObj cls id] is an object of
    any other class, named by its qualified class. *)
Inductive pyval : Type :=
  | PNone
  | PBool (b : bool)
  | PInt (z : Z)
  | PFloat (f : spec_float)
  | PStr (s : string)
  | PList (l : list pyval)
  | PDict (d : gmap string pyval)
  | PObj (cls : string) (id : nat).

Inductive pyexn : Type :=
  | ValueError (msg : string)
  | TypeError (msg : string)
  | OverflowError (msg : string)
  | IndexError (msg : string)
  | RuntimeError (msg : string).

(** A call either returns or raises. *)
Inductive result (A : Type) : Type :=
  | Ok (a : A)
  | Raise (e : pyexn).
Arguments Ok {A} a.
Arguments Raise {A} e.

#[export] Instance result_ret : MRet result := fun A a => Ok a.
#[export] Instance result_bind : MBind result := fun A B k m =>
  match m with
  | Ok a => k a
  | Raise e => Raise e
  end.

Definition nl : string := String (Ascii.ascii_of_nat 10) EmptyString.

(** The decimal numeral of an integer, with its sign.  [str(z)] is this
    text when the interpreter's limit on digits lets it through, see
    [str_int] below. *)
Definition str_of_int (z : Z) : string := NilZero.string_of_int (Z.to_int z).

(** [bool(v)].  A float is falsy only when it is a zero.  An object of
    another class is given the default truth value of an object; a class
    with [__bool__] or [__len__] can say otherwise, and no theorem below
    tests the truth of such an object. *)
Definition truthy (v : pyval) : bool :=
  match v with
  | PNone => false
  | PBool b => b
  | PInt z => negb (z =? 0)%Z
  | PFloat (S754_zero _) => false
  | PFloat _ => true
  | PStr EmptyString => false
  | PStr _ => true
  | PList [] => false
  | PList _ => true
  | PDict d => negb (Nat.eqb (size d) 0)
  | PObj _ _ => true
  end.

Definition type_name (v : pyval) : string :=
  match v with
  | PNone => "NoneType"
  | PBool _ => "bool"
  | PInt _ => "int"
  | PFloat _ => "float"
  | PStr _ => "str"
  | PList _ => "list"
  | PDict _ => "dict"
  | PObj cls _ => cls
  end.

(** [str(type(v))], as an f-string prints it. *)
Definition type_repr (v : pyval) : string :=
  "<class '" +:+ type_name v +:+ "'>".

(** [l * n] on lists: [n] copies of [l] end to end, none when [n <= 0]. *)
Definition list_mul {A} (l : list A) (n : Z) : list A :=
  concat (replicate (Z.to_nat n) l).

(** [v == s] for a string literal [s]: only a string compares equal. *)
Definition eq_str (v : pyval) (s : string) : bool :=
  match v with
  | PStr t => String.eqb t s
  | _ => false
  end.

(** [d.get(k, dflt)]: the default is used only when the key is missing. *)
Definition dict_get (d : gmap string pyval) (k : string) (dflt : pyval) : pyval :=
  match d !! k with
  | Some v => v
  | None => dflt
  end.

(** [int(f)] for a float: truncation toward zero; NaN and the infinities
    have no integer and raise. *)
Definition int_of_float (f : spec_float) : result Z :=
  match f with
  | S754_zero _ => Ok 0%Z
  | S754_infinity _ => Raise (OverflowError "cannot convert float infinity to integer")
  | S754_nan => Raise (ValueError "cannot convert float NaN to integer")
  | S754_finite s m e =>
      let mag := Z.shiftl (Z.pos m) e in
      Ok (if s then (- mag)%Z else mag)
  end.

Definition non_finite (v : pyval) : bool :=
  match v with
  | PFloat (S754_infinity _) | PFloat S754_nan => true
  | _ => false
  end.

(** [s.endswith(suffix)]: some tail of [s] is [suffix]. *)
Fixpoint endswith (s suffix : string) : bool :=
  String.eqb s suffix ||
  match s with
  | EmptyString => false
  | String _ rest => endswith rest suffix
  end.

(** [s.lower()] on the ASCII letters.  No letter outside ASCII lowers to an
    ASCII [n], [o] or [e], so a comparison of the result with ["none"] is
    the one the interpreter makes. *)
Definition lower_ascii (c : ascii) : ascii :=
  let n := nat_of_ascii c in
  if Nat.leb 65 n && Nat.leb n 90 then ascii_of_nat (n + 32) else c.

Fixpoint lower (s : string) : string :=
  match s with
  | EmptyString => EmptyString
  | String c rest => String (lower_ascii c) (lower rest)
  end.

(** The interpreter's built-ins that are not re-implemented here, and its
    configuration: [str()] on floats, containers and other objects (it can
    raise, as on a list that holds an integer too long to print); [int()]
    on a string ([None] when it raises [ValueError]); and
    [sys.get_int_max_str_digits()], 4300 unless reconfigured, 0 for no
    limit. *)
Class Builtins : Type := {
  str_builtin : pyval -> result string;
  int_of_str : string -> option Z;
  int_max_str_digits : nat
}.

(** Below this length an integer is always printed. *)
Definition str_digits_threshold : nat := 640.

(** The number of decimal digits of an integer, sign apart. *)
Definition digits (z : Z) : nat := String.length (str_of_int (Z.abs z)).

(** Whether the conversion of [z] to text is refused: its text is longer
    than the threshold, a limit is set, and [z] has more digits than it. *)
Definition over_limit {B : Builtins} (z : Z) : bool :=
  Nat.ltb str_digits_threshold (String.length (str_of_int z)) &&
  negb (Nat.eqb int_max_str_digits 0) &&
  Nat.ltb int_max_str_digits (digits z).

(** [str(z)] for an [int]. *)
Definition str_int {B : Builtins} (z : Z) : result string :=
  if over_limit z then
    Raise (ValueError
      ("Exceeds the limit (" +:+ str_of_int (Z.of_nat int_max_str_digits)
         +:+ " digits) for integer string conversion; "
         +:+ "use sys.set_int_max_str_digits() to increase the limit"))
  else Ok (str_of_int z).

(** What [f"{v}"] inserts. *)
Definition format {B : Builtins} (v : pyval) : result string :=
  match v with
  | PNone => Ok "None"
  | PBool true => Ok "True"
  | PBool false => Ok "False"
  | PInt z => str_int z
  | PStr s => Ok s
  | _ => str_builtin v
  end.

End Py.
Export Py.

(** *** audio_utils.py *)

Module AudioUtils.

(** A tensor of shape [[channels, samples]]: one row per channel. *)
Abbreviation tensor A := (list (list A)) (only parsing).

Section Silence.

(** The value of a tensor element: a number, an infinity or NaN.  Numbers
    are canonical rationals; every finite float and every integer is one. *)
Inductive fval : Type :=
  | FNan
  | FInf (negative : bool)
  | FNum (q : Qc).

Definition Qltb (x y : Q) : bool := negb (Qle_bool y x).

(** [a < b] on element values: false as soon as one side is NaN. *)
Definition fval_ltb (a b : fval) : bool :=
  match a, b with
  | FNan, _ => false
  | _, FNan => false
  | FInf true, FInf true => false
  | FInf true, _ => true
  | _, FInf true => false
  | FInf false, _ => false
  | FNum _, FInf false => true
  | FNum x, FNum y => Qltb x y
  end.

(** The larger of two values as [max()] folds it: NaN wins. *)
Definition fval_max (a b : fval) : fval :=
  match a, b with
  | FNan, _ => FNan
  | _, FNan => FNan
  | _, _ => if fval_ltb a b then b else a
  end.

(** What the dtype of the buffer decides: [abs()] on an element (exact on
    floats, wrapping at the least value of a signed integer type), the
    element in the dtype the comparison is made in, and the Python float
    [threshold] converted to that dtype (rounded, for float32). *)
Class DType : Type := {
  dt_abs : fval -> fval;
  dt_promote : fval -> fval;
  dt_cast : spec_float -> fval
}.

(** [audio.abs()] *)
Definition tensor_abs {D : DType} (audio : tensor fval) : tensor fval :=
  map (map dt_abs) audio.

(** [t.max()]: the largest element, NaN when one is; an empty tensor has
    none. *)
Definition tensor_max (t : tensor fval) : result fval :=
  match concat t with
  | [] => Raise (RuntimeError "max(): Expected reduction dim to be specified for input.numel() == 0. Specify the reduction dim with the 'dim' argument.")
  | x :: xs => Ok (foldl fval_max x xs)
  end.

(** The float [1e-4]. *)
Definition default_threshold : spec_float :=
  S754_finite false 7378697629483821 (-66).

Definition is_silence {D : DType} (audio : tensor fval) (threshold : spec_float)
    : result bool :=
  m ← tensor_max (tensor_abs audio);
  mret (fval_ltb (dt_promote m) (dt_cast threshold)).

(** The float dtypes.  The value of a float; [abs()], exact; the
    conversion of a float to the format of [prec] bits of precision,
    rounding to nearest, ties to even. *)
Definition fval_of_float (f : spec_float) : fval :=
  match f with
  | S754_zero _ => FNum (Q2Qc 0)
  | S754_infinity s => FInf s
  | S754_nan => FNan
  | S754_finite s m e =>
      let mag : Q :=
        if (0 <=? e)%Z then inject_Z (Z.pos m * 2 ^ e)
        else Z.pos m # Z.to_pos (2 ^ (- e)) in
      FNum (Q2Qc (if s then - mag else mag))
  end.

Definition float_abs (x : fval) : fval :=
  match x with
  | FNan => FNan
  | FInf _ => FInf false
  | FNum q => FNum (Qcabs q)
  end.

Definition round_float (prec emax : Z) (f : spec_float) : spec_float :=
  match f with
  | S754_finite s m e => binary_round prec emax s m e
  | _ => f
  end.

Definition float_dtype (prec emax : Z) : DType := {|
  dt_abs := float_abs;
  dt_promote := fun x => x;
  dt_cast := fun f => fval_of_float (round_float prec emax f)
|}.

Definition float32 : DType := float_dtype 24 128.

Definition float64 : DType := float_dtype 53 1024.

(** [-x] on a float. *)
Definition float_neg (x : fval) : fval :=
  match x with
  | FNan => FNan
  | FInf s => FInf (negb s)
  | FNum q => FNum (- q)%Qc
  end.

(** The dtype int8: [abs()] wraps at -128, and the comparison with a Python
    float is made in float32, which holds every int8 exactly. *)
Definition int8_abs (x : fval) : fval :=
  match x with
  | FNum q => if Qeq_bool q (- 128) then x else FNum (Qcabs q)
  | _ => x
  end.

Definition int8 : DType := {|
  dt_abs := int8_abs;
  dt_promote := fun x => x;
  dt_cast := fun f => fval_of_float (round_float 24 128 f)
|}.
End Silence.

Section Stereo.
Context {A : Type}.
(** [torchaudio.functional.resample(audio, sr, target_sr)]; it raises on a
    rate that is not positive and on a buffer it cannot reshape. *)
Variable resample : tensor A -> Z -> Z -> result (tensor A).

Definition default_target_sr : Z := 48000.

(** [# Resample if needed] *)
Definition resample_if_needed (audio : tensor A) (sr target_sr : Z)
    : result (tensor A) :=
  if bool_decide (sr ≠ target_sr) then resample audio sr target_sr else Ok audio.

(** [# Convert to stereo] *)
Definition to_stereo (audio : tensor A) : tensor A :=
  if Nat.eqb (length audio) 1 then
    list_mul audio 2            (* audio.repeat(2, 1) *)
  else if Nat.ltb 2 (length audio) then
    take 2 audio                (* audio[:2] *)
  else audio.

Definition normalize_audio_to_stereo_48k
    (audio : tensor A) (sr target_sr : Z) : result (tensor A) :=
  audio ← resample_if_needed audio sr target_sr;
  mret (to_stereo audio).
End Stereo.

Definition length_mismatch (name : string) (len batch_size : Z) : string :=
  name +:+ " length (" +:+ str_of_int len +:+ ") must be 1 or match batch_size ("
       +:+ str_of_int batch_size +:+ ")".

Definition normalize_audio_code_hints
    (audio_code_hints : pyval) (batch_size : Z) : result (list pyval) :=
  match audio_code_hints with
  | PNone => Ok (list_mul [PNone] batch_size)
  | PStr _ =>
      (* Single string -> replicate for batch *)
      Ok (list_mul [audio_code_hints] batch_size)
  | PList l =>
      if Nat.eqb (length l) 0 then Ok (list_mul [PNone] batch_size)
      else if Nat.eqb (length l) 1 then
        (* Single item list -> replicate *)
        Ok (list_mul l batch_size)
      else if negb (Z.of_nat (length l) =? batch_size)%Z then
        Raise (ValueError
          (length_mismatch "audio_code_hints" (Z.of_nat (length l)) batch_size))
      else Ok l
  | _ =>
      Raise (TypeError
        ("audio_code_hints must be str, list, or None, got "
           +:+ type_repr audio_code_hints))
  end.

Definition normalize_instructions
    (instructions : pyval) (batch_size : Z) (default : pyval)
    : result (list pyval) :=
  match instructions with
  | PNone =>
      match default with
      | PNone => Raise (ValueError "instructions and default cannot both be None")
      | _ => Ok (list_mul [default] batch_size)
      end
  | PStr _ =>
      (* Single string -> replicate for batch *)
      Ok (list_mul [instructions] batch_size)
  | PList l =>
      if Nat.eqb (length l) 0 then
        match default with
        | PNone => Raise (ValueError "Empty instructions list and no default provided")
        | _ => Ok (list_mul [default] batch_size)
        end
      else if Nat.eqb (length l) 1 then
        (* Single item list -> replicate *)
        Ok (list_mul l batch_size)
      else if negb (Z.of_nat (length l) =? batch_size)%Z then
        Raise (ValueError
          (length_mismatch "instructions" (Z.of_nat (length l)) batch_size))
      else Ok l
  | _ =>
      Raise (TypeError
        ("instructions must be str, list, or None, got "
           +:+ type_repr instructions))
  end.

Section Padding.
Context {A : Type}.

(** [torch.full((rows, cols), pad_value, dtype=...)]; a negative dimension
    raises.  [pad_value] is an element of the array's type: the conversion
    of a Python number to that type, which can overflow, is before this
    point. *)
Definition full (rows : nat) (cols : Z) (pad_value : A) : result (tensor A) :=
  if (cols <? 0)%Z then
    Raise (RuntimeError
      ("Trying to create tensor with negative dimension " +:+ str_of_int cols
         +:+ ": [" +:+ str_of_int (Z.of_nat rows) +:+ ", " +:+ str_of_int cols
         +:+ "]"))
  else Ok (replicate rows (replicate (Z.to_nat cols) pad_value)).

(** [row[:len(src)] = src], for [len(src) <= len(row)]. *)
Definition assign_prefix (row src : list A) : list A :=
  src ++ drop (length src) row.

(** [row[:length] = seq[:length]] with [length = min(seq.shape[0], max_length)]. *)
Definition write_row (max_length : Z) (seq row : list A) : list A :=
  let length := Z.min (Z.of_nat (length seq)) max_length in
  assign_prefix row (take (Z.to_nat length) seq).

(** The body of the loop, at index [i]. *)
Definition pad_row (max_length : Z) (padded : tensor A) (i : nat) (seq : list A)
    : tensor A :=
  alter (write_row max_length seq) i padded.

(** [for i, seq in enumerate(sequences)], from index [i]. *)
Fixpoint pad_loop (max_length : Z) (i : nat) (sequences : tensor A)
    (padded : tensor A) : tensor A :=
  match sequences with
  | [] => padded
  | seq :: rest => pad_loop max_length (S i) rest (pad_row max_length padded i seq)
  end.

Definition pad_sequences (sequences : tensor A) (max_length : Z) (pad_value : A)
    : result (tensor A) :=
  match sequences with
  | [] => Raise (IndexError "list index out of range")   (* sequences[0] *)
  | _ :: _ =>
      padded ← full (length sequences) max_length pad_value;
      mret (pad_loop max_length 0 sequences padded)
  end.
End Padding.

End AudioUtils.

(** *** metadata_builder.py *)

Module MetadataBuilder.

Definition create_default_meta : string :=
  "- bpm: N/A" +:+ nl +:+
  "- timesignature: N/A" +:+ nl +:+
  "- keyscale: N/A" +:+ nl +:+
  "- duration: 30 seconds" +:+ nl.

Section WithBuiltins.
Context {B : Builtins}.

(** The [# Format duration] step: the text that replaces [duration]. *)
Definition format_duration (duration : pyval) : result string :=
  match duration with
  | PInt z =>
      text ← str_int z;
      mret (text +:+ " seconds")
  | PBool b =>
      (* bool is a subclass of int: int(True) = 1 *)
      text ← str_int (if b then 1 else 0)%Z;
      mret (text +:+ " seconds")
  | PFloat f =>
      z ← int_of_float f;
      text ← str_int z;
      mret (text +:+ " seconds")
  | PStr s => Ok s
  | _ => Ok "30 seconds"
  end.

Definition dict_to_meta_string (meta_dict : gmap string pyval) : result string :=
  (* Extract values with fallbacks *)
  let bpm := dict_get meta_dict "bpm" (dict_get meta_dict "tempo" (PStr "N/A")) in
  let timesignature :=
    dict_get meta_dict "timesignature"
      (dict_get meta_dict "time_signature" (PStr "N/A")) in
  let keyscale :=
    dict_get meta_dict "keyscale"
      (dict_get meta_dict "key" (dict_get meta_dict "scale" (PStr "N/A"))) in
  let duration := dict_get meta_dict "duration" (dict_get meta_dict "length" (PInt 30)) in
  (* Format duration *)
  duration ← format_duration duration;
  (* the f-string, field by field *)
  bpm ← format bpm;
  timesignature ← format timesignature;
  keyscale ← format keyscale;
  mret ("- bpm: " +:+ bpm +:+ nl +:+
        "- timesignature: " +:+ timesignature +:+ nl +:+
        "- keyscale: " +:+ keyscale +:+ nl +:+
        "- duration: " +:+ duration +:+ nl).

Definition build_metadata_dict (bpm key_scale time_signature duration : pyval)
    : gmap string pyval :=
  let metadata : gmap string pyval := ∅ in
  (* Handle BPM *)
  let metadata :=
    match bpm with
    | PNone => <["bpm" := PStr "N/A"]> metadata
    | PStr s =>
        match int_of_str s with
        | Some z => <["bpm" := PInt z]> metadata
        | None => <["bpm" := PStr "N/A"]> metadata     (* except ValueError *)
        end
    | _ => <["bpm" := bpm]> metadata
    end in
  (* Handle key/scale *)
  let metadata :=
    <["keyscale" := if truthy key_scale then key_scale else PStr "N/A"]> metadata in
  (* Handle time signature *)
  let metadata :=
    <["timesignature" :=
        if truthy time_signature then time_signature else PStr "N/A"]> metadata in
  (* Handle duration *)
  match duration with
  | PNone => <["duration" := PInt 30]> metadata
  | _ => <["duration" := duration]> metadata
  end.

(** The body of the loop of [parse_metas]: one item to its text. *)
Definition parse_meta (meta : pyval) : result string :=
  match meta with
  | PNone => Ok create_default_meta          (* Default fallback metadata *)
  | PStr s => Ok s                           (* Already formatted string *)
  | PDict d => dict_to_meta_string d         (* Convert dict to formatted string *)
  | _ => Ok create_default_meta              (* Fallback for any other type *)
  end.

(** [for meta in metas], appending to [parsed_metas]; an exception raised
    for an item ends the loop. *)
Fixpoint parse_loop (metas : list pyval) (parsed_metas : list string)
    : result (list string) :=
  match metas with
  | [] => Ok parsed_metas
  | meta :: rest =>
      parsed_meta ← parse_meta meta;
      parse_loop rest (parsed_metas ++ [parsed_meta])
  end.

Definition parse_metas (metas : list pyval) : result (list string) :=
  parse_loop metas [].
End WithBuiltins.

Definition format_instruction (instruction : string) : string :=
  if negb (endswith instruction ":") then instruction +:+ ":" else instruction.

Definition format_lyrics (lyrics language : string) : string :=
  match lyrics with
  | EmptyString => EmptyString
  | _ =>
      (* Add language tag if specified *)
      match language with
      | EmptyString => lyrics
      | _ =>
          if negb (String.eqb (lower language) "none") then
            "[" +:+ language +:+ "] " +:+ lyrics
          else lyrics
      end
  end.

(** One turn of the loop of [extract_caption_and_language], at index [i]. *)
Definition extract_one (captions vocal_languages : list pyval)
    (i : nat) (meta : pyval) : pyval * pyval :=
  let caption := default (PStr "") (captions !! i) in
  let language := default (PStr "none") (vocal_languages !! i) in
  (* Extract from metadata if present *)
  match meta with
  | PDict d =>
      let caption :=
        match d !! "caption" with
        | Some c => if negb (truthy caption) then c else caption
        | None => caption
        end in
      let language :=
        match d !! "language" with
        | Some l => if eq_str language "none" then l else language
        | None => language
        end in
      (caption, language)
  | _ => (caption, language)
  end.

(** [for i, meta in enumerate(metas)], from index [i], appending to the two
    output lists. *)
Fixpoint extract_loop (captions vocal_languages : list pyval)
    (i : nat) (metas : list pyval)
    (processed_captions processed_languages : list pyval)
    : list pyval * list pyval :=
  match metas with
  | [] => (processed_captions, processed_languages)
  | meta :: rest =>
      let '(caption, language) := extract_one captions vocal_languages i meta in
      extract_loop captions vocal_languages (S i) rest
        (processed_captions ++ [caption]) (processed_languages ++ [language])
  end.

Definition extract_caption_and_language
    (metas captions vocal_languages : list pyval) : list pyval * list pyval :=
  extract_loop captions vocal_languages 0 metas [] [].

End MetadataBuilder.

(** *** The contract, in the words of the specification *)

Module Contract.

(** A fallback chain: the value under the first key of [keys] that the
    mapping holds, the default when it holds none of them. *)
Fixpoint first_present (m : gmap string pyval) (keys : list string) (dflt : pyval)
    : pyval :=
  match keys with
  | [] => dflt
  | k :: rest =>
      match m !! k with
      | Some v => v
      | None => first_present m rest dflt
      end
  end.

(** [t] is [±m·2^e] truncated toward zero. *)
Definition truncation_of (s : bool) (m : positive) (e : Z) (t : Z) : Prop :=
  exists k : Z,
    t = (if s then - k else k)%Z /\
    (0 <= k)%Z /\
    ((0 <= e)%Z -> k = (Z.pos m * 2 ^ e)%Z) /\
    ((e < 0)%Z -> (k * 2 ^ (- e) <= Z.pos m < (k + 1) * 2 ^ (- e))%Z).

(** The integer a numeric duration stands for: itself, 0 or 1 for a bool,
    the truncation toward zero of a finite float. *)
Inductive duration_integer : pyval -> Z -> Prop :=
  | integer_of_int z : duration_integer (PInt z) z
  | integer_of_bool b : duration_integer (PBool b) (if b then 1 else 0)%Z
  | integer_of_zero s : duration_integer (PFloat (S754_zero s)) 0%Z
  | integer_of_float s m e t :
      truncation_of s m e t -> duration_integer (PFloat (S754_finite s m e)) t.

(** The interpreter prints the integer [z]: no limit is set, or [z] has no
    more digits than the limit, or its text is no longer than the
    threshold under which no limit applies. *)
Definition within_limit {B : Builtins} (z : Z) : Prop :=
  int_max_str_digits = 0%nat \/
  (digits z <= int_max_str_digits)%nat \/
  (String.length (str_of_int z) <= str_digits_threshold)%nat.

(** How the duration field is worded. *)
Inductive duration_text : pyval -> string -> Prop :=
  | duration_int z :
      duration_text (PInt z) (str_of_int z +:+ " seconds")
  | duration_bool b :
      duration_text (PBool b) (str_of_int (if b then 1 else 0)%Z +:+ " seconds")
  | duration_float_zero s :
      duration_text (PFloat (S754_zero s)) "0 seconds"
  | duration_float s m e t :
      truncation_of s m e t ->
      duration_text (PFloat (S754_finite s m e)) (str_of_int t +:+ " seconds")
  | duration_str s :
      duration_text (PStr s) s
  | duration_none :
      duration_text PNone "30 seconds"
  | duration_list l :
      duration_text (PList l) "30 seconds"
  | duration_dict d :
      duration_text (PDict d) "30 seconds"
  | duration_obj cls id :
      duration_text (PObj cls id) "30 seconds".

(** The metadata text block: four newline-terminated lines, in the order
    bpm, timesignature, keyscale, duration. *)
Definition meta_block (bpm timesignature keyscale duration : string) : string :=
  "- bpm: " +:+ bpm +:+ nl +:+
  "- timesignature: " +:+ timesignature +:+ nl +:+
  "- keyscale: " +:+ keyscale +:+ nl +:+
  "- duration: " +:+ duration +:+ nl.

Definition is_str (v : pyval) : bool :=
  match v with
  | PStr _ => true
  | _ => false
  end.

(** [isinstance(v, (int, float))]; a [bool] is an [int]. *)
Definition is_numeric (v : pyval) : bool :=
  match v with
  | PInt _ | PBool _ | PFloat _ => true
  | _ => false
  end.

(** [a <= b] on element values: NaN is comparable with nothing. *)
Definition fval_leb (a b : AudioUtils.fval) : bool :=
  match a, b with
  | AudioUtils.FNan, _ => false
  | _, AudioUtils.FNan => false
  | AudioUtils.FInf true, _ => true
  | _, AudioUtils.FInf false => true
  | AudioUtils.FInf false, _ => false
  | AudioUtils.FNum _, AudioUtils.FInf true => false
  | AudioUtils.FNum x, AudioUtils.FNum y => Qle_bool x y
  end.

(** [m] is the maximum absolute sample value across the buffer, the
    absolute values being those of the buffer's dtype: one of them, NaN if
    one of them is NaN, and otherwise at least each of them. *)
Definition max_abs_of {D : AudioUtils.DType} (audio : AudioUtils.tensor AudioUtils.fval)
    (m : AudioUtils.fval) : Prop :=
  (exists x, x ∈ concat audio /\ AudioUtils.dt_abs x = m) /\
  ((exists x, x ∈ concat audio /\ AudioUtils.dt_abs x = AudioUtils.FNan) ->
     m = AudioUtils.FNan) /\
  (m <> AudioUtils.FNan ->
     forall x, x ∈ concat audio -> fval_leb (AudioUtils.dt_abs x) m = true).

(** Row [i] of the padded array: the first [min(len(seq), max_length)]
    elements of [seq], then [pad_value] up to [max_length]. *)
Definition padded_row {A} (seq : list A) (max_length : nat) (pad_value : A) : list A :=
  let n := Nat.min (length seq) max_length in
  take n seq ++ replicate (max_length - n) pad_value.


(** The optional string of a [str]-typed parameter that may be null. *)
Definition of_opt_str (o : option string) : pyval :=
  match o with
  | Some s => PStr s
  | None => PNone
  end.

(** "Empty or null -> N/A, else passed through". *)
Definition or_na (o : option string) : pyval :=
  match o with
  | None | Some EmptyString => PStr "N/A"
  | Some s => PStr s
  end.

(** The text of a key/scale or time signature: "N/A" when empty or null. *)
Definition na_text (o : option string) : string :=
  match o with
  | None | Some EmptyString => "N/A"
  | Some s => s
  end.

(** The caption and the language of item [i], as the specification words them. *)
Definition caption_at (captions : list string) (i : nat) (meta : pyval) : pyval :=
  let so_far := default EmptyString (captions !! i) in
  match meta with
  | PDict d =>
      match d !! "caption" with
      | Some c => if String.eqb so_far "" then c else PStr so_far
      | None => PStr so_far
      end
  | _ => PStr so_far
  end.

Definition language_at (languages : list string) (i : nat) (meta : pyval) : pyval :=
  let so_far := default "none" (languages !! i) in
  match meta with
  | PDict d =>
      match d !! "language" with
      | Some l => if String.eqb so_far "none" then l else PStr so_far
      | None => PStr so_far
      end
  | _ => PStr so_far
  end.

(** The keys the formatter reads. *)
Definition meta_keys : list string :=
  ["bpm"; "tempo"; "timesignature"; "time_signature";
   "keyscale"; "key"; "scale"; "duration"; "length"].

(** "Null -> 30, else passed through". *)
Definition or_thirty (duration : pyval) : pyval :=
  match duration with
  | PNone => PInt 30
  | _ => duration
  end.

(** A fallback key and a key that shadows it when present. *)
Definition shadowed_by : list (string * string) :=
  [("tempo", "bpm"); ("time_signature", "timesignature");
   ("key", "keyscale"); ("scale", "keyscale"); ("scale", "key");
   ("length", "duration")].

(** The duration a mapping resolves to. *)
Definition resolved_duration (m : gmap string pyval) : pyval :=
  first_present m ["duration"; "length"] (PInt 30).

(** A list item [parse_metas] can word: anything but a mapping on which
    [dict_to_meta_string] raises. *)
Definition wordable {B : Builtins} (meta : pyval) : Prop :=
  match meta with
  | PDict d => exists text, MetadataBuilder.dict_to_meta_string d = Ok text
  | _ => True
  end.

End Contract.

(** *** Rounding to a binary floating-point format, read arithmetically

    What [binary_round], the rounding the float dtypes convert a threshold
    with, computes, in terms of integer division: used to show that the
    conversion keeps the order of thresholds. *)

Module Rounding.
Local Open Scope Z_scope.

(** The integer nearest to [a / b], the even one of two equally near. *)
Definition rne_div (a b : Z) : Z :=
  let q := a / b in
  match 2 * (a mod b) ?= b with
  | Lt => q
  | Eq => if Z.even q then q else q + 1
  | Gt => q + 1
  end.

(** [m / 2 ^ s] rounded so; exact when [s] is not positive. *)
Definition rne_shift (m s : Z) : Z :=
  if 0 <? s then rne_div m (2 ^ s) else m * 2 ^ (- s).

(** The state of the shifter of [binary_round] after [k] shifts of [m]:
    the quotient, the last bit shifted out, and whether a bit before it
    was set. *)
Definition shifted (m k : Z) : shr_record :=
  {| shr_m := m / 2 ^ k;
     shr_r := if k =? 0 then false else Z.odd (m / 2 ^ (k - 1));
     shr_s := if k =? 0 then false else negb (m mod 2 ^ (k - 1) =? 0) |}.

(** [n * 2 ^ e], and the same as [fval_of_float] writes it. *)
Definition value (n e : Z) : Q := (inject_Z n * 2 ^ e)%Q.

Definition magnitude (m : positive) (e : Z) : Q :=
  if (0 <=? e)%Z then inject_Z (Z.pos m * 2 ^ e)
  else Z.pos m # Z.to_pos (2 ^ (- e)).

(** The integer nearest to a rational. *)
Definition rneQ (q : Q) : Z := rne_div (Qnum q) (Z.pos (Qden q)).

Section Format.
Variables prec emax : Z.

(** The exponent of the grid that [m * 2 ^ e] is rounded on, and the
    multiple of the grid step it is rounded to. *)
Definition grid_exp (m : positive) (e : Z) : Z :=
  fexp prec emax (Z.pos (digits2_pos m) + e).

Definition rounded (m : positive) (e : Z) : Z :=
  rne_shift (Z.pos m) (grid_exp m e - e).

(** A multiple that reached [2 ^ prec] moves to the next grid. *)
Definition normal (n E : Z) : Z * Z :=
  if n =? 2 ^ prec then (2 ^ (prec - 1), E + 1) else (n, E).

(** The float of sign [s] for the multiple [n] of [2 ^ E]: zero, finite,
    or infinite beyond the largest exponent. *)
Definition round_result (s : bool) (n E : Z) : spec_float :=
  let '(n', E') := normal n E in
  if n' =? 0 then S754_zero s
  else if E' <=? emax - prec then S754_finite s (Z.to_pos n') E'
  else S754_infinity s.

(** How the multiples and grid exponents of two numbers in order
    compare. *)
Definition ordered (n1 E1 n2 E2 : Z) : Prop :=
  0 <= n1 <= 2 ^ prec /\ 0 <= n2 <= 2 ^ prec /\ E1 <= E2 /\
  (E1 = E2 -> n1 <= n2) /\ (E1 < E2 -> 2 ^ (prec - 1) <= n2).

End Format.

End Rounding.

(** *** A stand-in interpreter, to run the definitions on closed inputs *)

Module Sample.

Definition is_space (c : ascii) : bool :=
  let n := Ascii.nat_of_ascii c in
  (Nat.leb 9 n && Nat.leb n 13) || Nat.eqb n 32.

Definition digit_of (c : ascii) : option Z :=
  let n := Ascii.nat_of_ascii c in
  if Nat.leb 48 n && Nat.leb n 57 then Some (Z.of_nat (n - 48)) else None.

Fixpoint strip_left (l : list ascii) : list ascii :=
  match l with
  | c :: rest => if is_space c then strip_left rest else l
  | [] => []
  end.

Definition strip (l : list ascii) : list ascii :=
  rev (strip_left (rev (strip_left l))).

(** Digit groups separated by single underscores. *)
Fixpoint digits (l : list ascii) (acc : Z) (after_digit : bool) : option Z :=
  match l with
  | [] => if after_digit then Some acc else None
  | c :: rest =>
      match digit_of c with
      | Some d => digits rest (10 * acc + d)%Z true
      | None =>
          if Ascii.eqb c "_" && after_digit then digits rest acc false else None
      end
  end.

(** [int(s)] on ASCII text: blanks around, an optional sign, decimal digits. *)
Definition decimal_int_of_str (s : string) : option Z :=
  match strip (String.list_ascii_of_string s) with
  | "-"%char :: rest => Z.opp <$> digits rest 0%Z false
  | "+"%char :: rest => digits rest 0%Z false
  | l => digits l 0%Z false
  end.

(** Values outside the modelled fragment print as their class name only;
    no example below reaches that branch.  The digit limit is the
    interpreter's default. *)
#[export] Instance builtins : Builtins := {
  str_builtin v := Ok ("<" +:+ type_name v +:+ ">");
  int_of_str := decimal_int_of_str;
  int_max_str_digits := 4300
}.

(** [{"bpm": 120, "timesignature": "4/4", "keyscale": "C major", "duration": 30}] *)
Definition canonical_meta : gmap string pyval :=
  {[ "bpm" := PInt 120; "timesignature" := PStr "4/4";
     "keyscale" := PStr "C major"; "duration" := PInt 30 ]}.

(** [{"tempo": None, "key": "A minor", "length": -3.5}] *)
Definition fallback_meta : gmap string pyval :=
  {[ "tempo" := PNone; "key" := PStr "A minor";
     "length" := PFloat (S754_finite true 7 (-1)) ]}.

(** [{"bpm": 90, "duration": "about a minute"}] *)
Definition worded_meta : gmap string pyval :=
  {[ "bpm" := PInt 90; "duration" := PStr "about a minute" ]}.

(** [{"duration": float("inf")}] *)
Definition endless_meta : gmap string pyval :=
  {[ "duration" := PFloat (S754_infinity false) ]}.

(** Keep every other sample: a resampler that halves the rate.  Like the
    library's, it refuses a rate that is not positive and a buffer without
    channels. *)
Fixpoint decimate {A} (row : list A) : list A :=
  match row with
  | x :: _ :: rest => x :: decimate rest
  | _ => row
  end.

Definition halve {A} (audio : AudioUtils.tensor A) (sr target_sr : Z)
    : result (AudioUtils.tensor A) :=
  if (sr <=? 0)%Z || (target_sr <=? 0)%Z then
    Raise (ValueError "Original frequency and desired frequecy should be positive")
  else
    match audio with
    | [] => Raise (RuntimeError "cannot reshape tensor of 0 elements into shape [0, -1]")
    | _ => Ok (map decimate audio)
    end.

(** A channel of [n] samples is at rate [24000 n]: it lasts 1/24000 s. *)
Definition lasts_one_tick {A} (channel : list A) (rate : Z) : Prop :=
  (Z.of_nat (length channel) * 24000 = rate)%Z.

(** The float32 nearest to [1e-4], as an element value. *)
Definition tenth_of_milli_f32 : AudioUtils.fval :=
  AudioUtils.fval_of_float (S754_finite false 13743895 (-37)).

(** An integer of 4301 digits. *)
Definition googolish : Z := (10 ^ 4300)%Z.

(** [{"duration": 10 ** 4300}] *)
Definition overlong_meta : gmap string pyval :=
  {[ "duration" := PInt googolish ]}.

End Sample.

(** ** Part II. Theorems *)

(** *** Facts about the built-ins *)

Module PyFacts.

Lemma list_mul_singleton {A} (x : A) (n : Z) :
  list_mul [x] n = replicate (Z.to_nat n) x.
Proof.
  unfold list_mul. induction (Z.to_nat n) as [|k IH]; simpl; [done|].
  by rewrite IH.
Qed.

Lemma list_mul_one {A} (l : list A) : list_mul l 1 = l.
Proof. unfold list_mul. simpl. apply app_nil_r. Qed.

Lemma list_mul_two {A} (l : list A) : list_mul l 2 = l ++ l.
Proof. unfold list_mul. simpl. by rewrite app_nil_r. Qed.

Lemma list_mul_nonpos {A} (l : list A) (n : Z) : (n <= 0)%Z -> list_mul l n = [].
Proof.
  intros Hn. unfold list_mul.
  replace (Z.to_nat n) with 0%nat by lia. done.
Qed.

Lemma length_list_mul {A} (l : list A) (n : Z) :
  length (list_mul l n) = (Z.to_nat n * length l)%nat.
Proof.
  unfold list_mul. induction (Z.to_nat n) as [|k IH]; simpl; [done|].
  rewrite length_app, IH. lia.
Qed.

(** [int()] on a finite float returns, and returns the truncation. *)
Lemma int_of_float_finite (s : bool) (m : positive) (e : Z) :
  exists t, int_of_float (S754_finite s m e) = Ok t /\ Contract.truncation_of s m e t.
Proof.
  simpl. eexists. split; [reflexivity|].
  exists (Z.shiftl (Z.pos m) e). split; [done|].
  split; [apply Z.shiftl_nonneg; lia|].
  split.
  - intros He. by apply Z.shiftl_mul_pow2.
  - intros He.
    assert (Z.shiftl (Z.pos m) e = Z.pos m / 2 ^ (- e))%Z as ->.
    { rewrite <- (Z.opp_involutive e) at 1.
      rewrite Z.shiftl_opp_r. apply Z.shiftr_div_pow2. lia. }
    assert (0 < 2 ^ (- e))%Z as Hp by (apply Z.pow_pos_nonneg; lia).
    pose proof (Z.mul_div_le (Z.pos m) _ Hp).
    pose proof (Z.mul_succ_div_gt (Z.pos m) _ Hp).
    lia.
Qed.

(** The truncation toward zero is one integer. *)
Lemma truncation_of_unique (s : bool) (m : positive) (e t t' : Z) :
  Contract.truncation_of s m e t -> Contract.truncation_of s m e t' -> t = t'.
Proof.
  intros (k & -> & Hk & Hpos & Hneg) (k' & -> & Hk' & Hpos' & Hneg').
  assert (k = k') as ->; [|done].
  destruct (Z.le_gt_cases 0 e) as [He|He].
  - rewrite (Hpos He), (Hpos' He). done.
  - specialize (Hneg He). specialize (Hneg' He).
    assert (0 < 2 ^ (- e))%Z as Hp by (apply Z.pow_pos_nonneg; lia).
    nia.
Qed.

Lemma over_limit_false_iff {B : Builtins} (z : Z) :
  over_limit z = false <-> Contract.within_limit z.
Proof.
  unfold over_limit, Contract.within_limit.
  destruct (Nat.ltb_spec str_digits_threshold (String.length (str_of_int z)));
    destruct (Nat.eqb_spec int_max_str_digits 0);
    destruct (Nat.ltb_spec int_max_str_digits (digits z)); simpl;
    split; try done; try tauto; try lia; intros [?|[?|?]]; lia.
Qed.

(** [str()] on an integer the interpreter prints is its decimal numeral. *)
Lemma str_int_within {B : Builtins} (z : Z) :
  Contract.within_limit z -> str_int z = Ok (str_of_int z).
Proof.
  intros Hz. unfold str_int. by rewrite (proj2 (over_limit_false_iff z) Hz).
Qed.

(** On any other integer it raises [ValueError]. *)
Lemma str_int_beyond {B : Builtins} (z : Z) :
  ~ Contract.within_limit z -> exists msg, str_int z = Raise (ValueError msg).
Proof.
  intros Hz. unfold str_int. destruct (over_limit z) eqn:E; [eauto|].
  by apply over_limit_false_iff in E.
Qed.

Lemma str_int_inv {B : Builtins} (z : Z) (text : string) :
  str_int z = Ok text -> text = str_of_int z /\ Contract.within_limit z.
Proof.
  unfold str_int. destruct (over_limit z) eqn:E; [done|].
  intros [= <-]. split; [done|]. by apply over_limit_false_iff.
Qed.

(** An integer of at most 640 characters is printed under every limit. *)
Lemma within_limit_short {B : Builtins} (z : Z) :
  (String.length (str_of_int z) <= str_digits_threshold)%nat ->
  Contract.within_limit z.
Proof. intros Hz. right. by right. Qed.

Lemma format_str {B : Builtins} (s : string) : format (PStr s) = Ok s.
Proof. reflexivity. Qed.

Lemma format_int {B : Builtins} (z : Z) : format (PInt z) = str_int z.
Proof. reflexivity. Qed.

End PyFacts.

(** *** audio_utils.py: silence detection *)

Module SilenceProofs.
Import AudioUtils Contract.

Lemma Qltb_lt (x y : Q) : Qltb x y = true <-> (x < y)%Q.
Proof.
  unfold Qltb. rewrite negb_true_iff, <- not_true_iff_false, Qle_bool_iff.
  split; [apply Qnot_le_lt | apply Qlt_not_le].
Qed.


Lemma fval_leb_refl (a : fval) : a <> FNan -> fval_leb a a = true.
Proof.
  destruct a as [|[]|x]; simpl; try done. intros _.
  apply Qle_bool_iff, Qle_refl.
Qed.

Lemma fval_leb_trans (a b c : fval) :
  fval_leb a b = true -> fval_leb b c = true -> fval_leb a c = true.
Proof.
  destruct a as [|[]|x], b as [|[]|y], c as [|[]|z]; simpl; try done.
  rewrite !Qle_bool_iff. apply Qle_trans.
Qed.


Lemma fval_lt_le_trans (a b c : fval) :
  fval_ltb a b = true -> fval_leb b c = true -> fval_ltb a c = true.
Proof.
  destruct a as [|[]|x], b as [|[]|y], c as [|[]|z]; simpl; try done.
  rewrite !Qltb_lt, Qle_bool_iff. apply Qlt_le_trans.
Qed.

(** What [max()] keeps of two values. *)
Lemma fval_max_cases (a b : fval) : fval_max a b = a \/ fval_max a b = b.
Proof.
  destruct a as [|[]|x], b as [|[]|y]; simpl; auto.
  destruct (Qltb x y); auto.
Qed.

Lemma fval_max_nan (a b : fval) :
  fval_max a b = FNan <-> a = FNan \/ b = FNan.
Proof.
  destruct a as [|[]|x], b as [|[]|y]; simpl; try (split; auto; fail);
    try (split; [done|by intros [?|?]]).
  destruct (Qltb x y); (split; [done|by intros [?|?]]).
Qed.

Lemma fval_max_upper (a b : fval) :
  a <> FNan -> b <> FNan ->
  fval_leb a (fval_max a b) = true /\ fval_leb b (fval_max a b) = true.
Proof.
  destruct a as [|[]|x], b as [|[]|y]; simpl; try done; intros _ _;
    try (split; (done || apply Qle_bool_iff, Qle_refl)).
  destruct (Qltb x y) eqn:E; simpl.
  - apply Qltb_lt in E. split; apply Qle_bool_iff;
      [by apply Qlt_le_weak | apply Qle_refl].
  - split; apply Qle_bool_iff; [apply Qle_refl|].
    apply Qnot_lt_le. intros Hlt. apply Qltb_lt in Hlt. congruence.
Qed.

(** The running maximum is an element of the list, NaN as soon as the
    list has one, and otherwise bounds all of it. *)
Lemma foldl_fval_max (xs : list fval) : forall x,
  foldl fval_max x xs ∈ x :: xs /\
  (FNan ∈ x :: xs -> foldl fval_max x xs = FNan) /\
  (foldl fval_max x xs <> FNan ->
   forall y, y ∈ x :: xs -> fval_leb y (foldl fval_max x xs) = true).
Proof.
  induction xs as [|z xs IH]; intros x; simpl.
  - split; [apply elem_of_cons; by left|]. split.
    + by intros ->%list_elem_of_singleton.
    + intros Hx y ->%list_elem_of_singleton. by apply fval_leb_refl.
  - destruct (IH (fval_max x z)) as (Hin & Hnan & Hub).
    split; [|split].
    + apply elem_of_cons in Hin as [Heq|Hin].
      * rewrite Heq. apply elem_of_cons.
        destruct (fval_max_cases x z) as [->| ->]; [by left|].
        right. apply elem_of_cons. by left.
      * apply elem_of_cons. right. apply elem_of_cons. by right.
    + intros Hy. apply Hnan.
      apply elem_of_cons in Hy as [Hy|Hy].
      { apply elem_of_cons. left. symmetry. apply fval_max_nan. by left. }
      apply elem_of_cons in Hy as [Hy|Hy].
      { apply elem_of_cons. left. symmetry. apply fval_max_nan. by right. }
      apply elem_of_cons. by right.
    + intros Hr y Hy.
      assert (fval_max x z <> FNan) as Hacc.
      { intros Heq. apply Hr, Hnan, elem_of_cons. by left. }
      assert (x <> FNan /\ z <> FNan) as [Hx Hz].
      { split; intros ->; apply Hacc, fval_max_nan; auto. }
      destruct (fval_max_upper x z Hx Hz) as [Hxm Hzm].
      assert (fval_leb (fval_max x z) (foldl fval_max (fval_max x z) xs) = true)
        as Hm by (apply Hub; [done|apply elem_of_cons; by left]).
      apply elem_of_cons in Hy as [->|Hy]; [by eapply fval_leb_trans|].
      apply elem_of_cons in Hy as [->|Hy]; [by eapply fval_leb_trans|].
      apply Hub; [done|]. apply elem_of_cons. by right.
Qed.

Section WithDType.
Context {D : DType}.

Lemma concat_tensor_abs (audio : tensor fval) :
  concat (tensor_abs audio) = map dt_abs (concat audio).
Proof. unfold tensor_abs. symmetry. apply concat_map. Qed.

(** What [abs().max()] returns is the maximum absolute sample value. *)
Lemma tensor_max_is_max (audio : tensor fval) (m : fval) :
  tensor_max (tensor_abs audio) = Ok m -> max_abs_of audio m.
Proof.
  unfold tensor_max. rewrite concat_tensor_abs.
  destruct (concat audio) as [|a rest] eqn:E; [discriminate|].
  simpl. intros [= <-].
  destruct (foldl_fval_max (map dt_abs rest) (dt_abs a)) as (Hin & Hnan & Hub).
  change (dt_abs a :: map dt_abs rest) with (map dt_abs (a :: rest)) in Hin, Hnan, Hub.
  unfold max_abs_of. rewrite E. split; [|split].
  - apply list_elem_of_fmap in Hin as (y & Hy & Hin). eauto.
  - intros (x & Hx & Hxn). apply Hnan. rewrite <- Hxn.
    by apply list_elem_of_fmap_2.
  - intros Hm x Hx. apply Hub; [done|]. by apply list_elem_of_fmap_2.
Qed.




End WithDType.



End SilenceProofs.

(** *** Rounding to a floating-point format is monotone *)

Module RoundingProofs.
Import AudioUtils Contract Rounding.
Local Open Scope Z_scope.

Lemma digits2_pos_bounds (p : positive) :
  2 ^ (Z.pos (digits2_pos p) - 1) <= Z.pos p < 2 ^ Z.pos (digits2_pos p).
Proof.
  induction p as [p IH|p IH|]; cbn [digits2_pos].
  - rewrite Pos2Z.inj_succ.
    replace (Z.succ (Z.pos (digits2_pos p)) - 1) with (Z.succ (Z.pos (digits2_pos p) - 1)) by lia.
    rewrite !Z.pow_succ_r by lia. lia.
  - rewrite Pos2Z.inj_succ.
    replace (Z.succ (Z.pos (digits2_pos p)) - 1) with (Z.succ (Z.pos (digits2_pos p) - 1)) by lia.
    rewrite !Z.pow_succ_r by lia. lia.
  - simpl. lia.
Qed.

Lemma digits2_pos_unique (p : positive) (d : Z) :
  2 ^ (d - 1) <= Z.pos p < 2 ^ d -> Z.pos (digits2_pos p) = d.
Proof.
  intros [Hlo Hhi]. pose proof (digits2_pos_bounds p) as [Hlo' Hhi'].
  assert (0 < d).
  { destruct (Z.lt_trichotomy d 0) as [Hd|[Hd|Hd]]; [|subst d; simpl in Hhi; lia|done].
    rewrite Z.pow_neg_r in Hhi by lia. lia. }
  assert (d - 1 < Z.pos (digits2_pos p)).
  { apply (Z.pow_lt_mono_r_iff 2); lia. }
  assert (Z.pos (digits2_pos p) - 1 < d).
  { apply (Z.pow_lt_mono_r_iff 2); lia. }
  lia.
Qed.

Lemma shr_1_nonneg (m : Z) (r s : bool) :
  0 <= m ->
  shr_1 {| shr_m := m; shr_r := r; shr_s := s |} =
    {| shr_m := m / 2; shr_r := Z.odd m; shr_s := r || s |}.
Proof.
  intros Hm. rewrite <- Z.div2_div.
  destruct m as [|[p|p|]|p]; done.
Qed.

Lemma shr_1_shifted (m k : Z) :
  0 <= m -> 0 <= k -> shr_1 (shifted m k) = shifted m (k + 1).
Proof.
  intros Hm Hk. unfold shifted. rewrite shr_1_nonneg by (apply Z.div_pos; lia).
  assert (0 < 2 ^ k) by (apply Z.pow_pos_nonneg; lia).
  rewrite Z.div_div by lia.
  replace (2 ^ k * 2) with (2 ^ (k + 1)) by (rewrite Z.pow_add_r by lia; lia).
  replace (k + 1 =? 0) with false by lia.
  replace (k + 1 - 1) with k by lia.
  f_equal.
  destruct (Z.eqb_spec k 0) as [->|Hk0].
  - simpl. rewrite Z.mod_1_r. reflexivity.
  - assert (0 < 2 ^ (k - 1)) by (apply Z.pow_pos_nonneg; lia).
    replace (2 ^ k) with (2 ^ (k - 1) * 2)
      by (replace k with (k - 1 + 1) at 2 by lia; rewrite Z.pow_add_r by lia; lia).
    rewrite Z.rem_mul_r by lia.
    rewrite Zodd_mod.
    pose proof (Z.mod_pos_bound m (2 ^ (k - 1))).
    pose proof (Z.mod_pos_bound (m / 2 ^ (k - 1)) 2).
    repeat match goal with
           | |- context [?a =? ?b] => destruct (Z.eqb_spec a b)
           end; simpl; try reflexivity; nia.
Qed.

Lemma iter_pos_shifted (m : Z) (p : positive) : forall k,
  0 <= m -> 0 <= k ->
  SpecFloat.iter_pos shr_1 p (shifted m k) = shifted m (k + Z.pos p).
Proof.
  induction p as [p IH|p IH|]; intros k Hm Hk; cbn [SpecFloat.iter_pos].
  - rewrite shr_1_shifted, !IH by lia. f_equal. lia.
  - rewrite !IH by lia. f_equal. lia.
  - by apply shr_1_shifted.
Qed.

Lemma round_shifted (m k : Z) :
  0 <= m -> 0 < k ->
  round_nearest_even (shr_m (shifted m k)) (loc_of_shr_record (shifted m k)) =
    rne_div m (2 ^ k).
Proof.
  intros Hm Hk. unfold shifted, rne_div. cbn [shr_m].
  replace (k =? 0) with false by lia.
  assert (0 < 2 ^ (k - 1)) by (apply Z.pow_pos_nonneg; lia).
  replace (2 ^ k) with (2 ^ (k - 1) * 2)
    by (replace k with (k - 1 + 1) at 2 by lia; rewrite Z.pow_add_r by lia; lia).
  rewrite Z.rem_mul_r by lia. rewrite Zodd_mod.
  pose proof (Z.mod_pos_bound m (2 ^ (k - 1))).
  pose proof (Z.mod_pos_bound (m / 2 ^ (k - 1)) 2).
  destruct (Z.eqb_spec ((m / 2 ^ (k - 1)) mod 2) 1) as [Hb|Hb];
    destruct (Z.eqb_spec (m mod 2 ^ (k - 1)) 0) as [Hl|Hl]; simpl;
    match goal with
    | |- context [?a ?= ?b] => destruct (Z.compare_spec a b)
    end; try reflexivity; nia.
Qed.

Lemma shifted_0 (m : Z) :
  shifted m 0 = {| shr_m := m; shr_r := false; shr_s := false |}.
Proof. unfold shifted. simpl. by rewrite Z.div_1_r. Qed.

Lemma rne_div_bounds (a b : Z) : a / b <= rne_div a b <= a / b + 1.
Proof.
  unfold rne_div. destruct (2 * (a mod b) ?= b); [destruct (Z.even (a / b))| |]; lia.
Qed.

Lemma pow2_pos (e : Z) : (0 < 2 ^ e)%Q.
Proof. by apply Qpower_0_lt. Qed.

Lemma pow2_add (a b : Z) : (2 ^ (a + b) == 2 ^ a * 2 ^ b)%Q.
Proof. by apply Qpower_plus. Qed.

Lemma pow2_inject (k : Z) : 0 <= k -> (inject_Z (2 ^ k) == 2 ^ k)%Q.
Proof. intros Hk. by rewrite Zpower_Qpower. Qed.

Lemma value_le_same (n1 n2 e : Z) : (value n1 e <= value n2 e)%Q <-> n1 <= n2.
Proof.
  unfold value. rewrite Qmult_le_r by apply pow2_pos. by rewrite <- Zle_Qle.
Qed.

Lemma value_pow2 (k e : Z) : 0 <= k -> (value (2 ^ k) e == 2 ^ (k + e))%Q.
Proof. intros Hk. unfold value. by rewrite pow2_inject, pow2_add. Qed.

Lemma value_shift (n e k : Z) : (value n (e + k) == value n e * 2 ^ k)%Q.
Proof. unfold value. rewrite pow2_add. ring. Qed.

Lemma magnitude_value (m : positive) (e : Z) :
  (magnitude m e == value (Z.pos m) e)%Q.
Proof.
  unfold magnitude, value. destruct (Z.leb_spec 0 e) as [He|He].
  - by rewrite inject_Z_mult, pow2_inject.
  - assert (0 < 2 ^ (- e)) by (apply Z.pow_pos_nonneg; lia).
    rewrite (Qmake_Qdiv (Z.pos m)), Z2Pos.id, pow2_inject by lia.
    replace e with (- - e) at 2 by lia. rewrite (Qpower_opp 2 (- e)). reflexivity.
Qed.

Lemma value_bounds (m : positive) (e : Z) :
  (2 ^ (Z.pos (digits2_pos m) + e - 1) <= value (Z.pos m) e)%Q /\
  (value (Z.pos m) e < 2 ^ (Z.pos (digits2_pos m) + e))%Q.
Proof.
  pose proof (digits2_pos_bounds m) as [Hlo Hhi].
  split.
  - replace (Z.pos (digits2_pos m) + e - 1) with (Z.pos (digits2_pos m) - 1 + e) by lia.
    rewrite <- value_pow2 by lia. by apply value_le_same.
  - rewrite <- value_pow2 by lia. unfold value.
    apply Qmult_lt_compat_r; [apply pow2_pos|]. by rewrite <- Zlt_Qlt.
Qed.

Lemma digits_mono (m1 m2 : positive) (e1 e2 : Z) :
  (value (Z.pos m1) e1 <= value (Z.pos m2) e2)%Q ->
  Z.pos (digits2_pos m1) + e1 <= Z.pos (digits2_pos m2) + e2.
Proof.
  intros Hle.
  pose proof (value_bounds m1 e1) as [Hlo _].
  pose proof (value_bounds m2 e2) as [_ Hhi].
  assert (Z.pos (digits2_pos m1) + e1 - 1 < Z.pos (digits2_pos m2) + e2); [|lia].
  apply (Qpower_lt_compat_l_inv 2); [|done].
  eapply Qle_lt_trans; [exact Hlo|]. eapply Qle_lt_trans; [exact Hle|exact Hhi].
Qed.

Lemma rne_div_scale (a b c : Z) :
  0 < b -> 0 < c -> rne_div (a * c) (b * c) = rne_div a b.
Proof.
  intros Hb Hc. unfold rne_div.
  rewrite Z.div_mul_cancel_r, Z.mul_mod_distr_r by lia.
  destruct (Z.compare_spec (2 * (a mod b)) b),
    (Z.compare_spec (2 * (a mod b * c)) (b * c)); try reflexivity; nia.
Qed.

Lemma rne_div_mono (a a' b : Z) :
  0 < b -> a <= a' -> rne_div a b <= rne_div a' b.
Proof.
  intros Hb Hle.
  pose proof (Z.div_le_mono a a' b Hb Hle) as Hq.
  destruct (Z.eq_dec (a / b) (a' / b)) as [Heq|Hne].
  - pose proof (Z.mod_eq a b) as Hr. pose proof (Z.mod_eq a' b) as Hr'.
    unfold rne_div. rewrite <- Heq.
    destruct (Z.compare_spec (2 * (a mod b)) b),
      (Z.compare_spec (2 * (a' mod b)) b), (Z.even (a / b)); lia.
  - pose proof (rne_div_bounds a b). pose proof (rne_div_bounds a' b). lia.
Qed.

Lemma rneQ_mono (q q' : Q) : (q <= q')%Q -> rneQ q <= rneQ q'.
Proof.
  unfold Qle, rneQ. intros Hle.
  rewrite <- (rne_div_scale (Qnum q) (Z.pos (Qden q)) (Z.pos (Qden q'))) by lia.
  rewrite <- (rne_div_scale (Qnum q') (Z.pos (Qden q')) (Z.pos (Qden q))) by lia.
  rewrite (Z.mul_comm (Z.pos (Qden q')) (Z.pos (Qden q))).
  by apply rne_div_mono; [lia|].
Qed.

Lemma rneQ_compat (q q' : Q) : (q == q')%Q -> rneQ q = rneQ q'.
Proof.
  intros Heq. apply Z.le_antisymm; apply rneQ_mono; rewrite Heq; apply Qle_refl.
Qed.

Lemma rne_shift_rneQ (m s : Z) : rne_shift m s = rneQ (value m (- s)).
Proof.
  unfold rne_shift. destruct (Z.ltb_spec 0 s) as [Hpos|Hneg].
  - assert (0 < 2 ^ s) by (apply Z.pow_pos_nonneg; lia).
    rewrite (rneQ_compat (value m (- s)) (m # Z.to_pos (2 ^ s))).
    + unfold rneQ. simpl. by rewrite Z2Pos.id.
    + unfold value.
      rewrite (Qmake_Qdiv m), Z2Pos.id, pow2_inject, Qpower_opp by lia. reflexivity.
  - rewrite (rneQ_compat (value m (- s)) (inject_Z (m * 2 ^ (- s)))).
    + unfold rneQ, rne_div. simpl. by rewrite Z.div_1_r, Z.mod_1_r.
    + unfold value. by rewrite inject_Z_mult, pow2_inject by lia.
Qed.

Section Format.
Variables prec emax : Z.
Hypothesis Hprec : 0 < prec.

Lemma rne_shift_upper (m : positive) (s : Z) :
  Z.pos (digits2_pos m) - prec <= s ->
  0 <= rne_shift (Z.pos m) s <= 2 ^ prec.
Proof.
  intros Hs. pose proof (digits2_pos_bounds m) as [_ Hhi].
  unfold rne_shift. destruct (Z.ltb_spec 0 s) as [Hpos|Hneg].
  - pose proof (rne_div_bounds (Z.pos m) (2 ^ s)) as [Hlo Hup].
    assert (0 < 2 ^ s) by (apply Z.pow_pos_nonneg; lia).
    assert (0 <= Z.pos m / 2 ^ s) by (apply Z.div_pos; lia).
    assert (Z.pos m / 2 ^ s < 2 ^ prec); [|lia].
    apply Z.div_lt_upper_bound; [lia|].
    rewrite <- Z.pow_add_r by lia.
    eapply Z.lt_le_trans; [exact Hhi|]. apply Z.pow_le_mono_r; lia.
  - assert (0 < 2 ^ (- s)) by (apply Z.pow_pos_nonneg; lia).
    split; [lia|].
    assert (Z.pos m * 2 ^ (- s) < 2 ^ Z.pos (digits2_pos m) * 2 ^ (- s)) by nia.
    rewrite <- Z.pow_add_r in * by lia.
    assert (2 ^ (Z.pos (digits2_pos m) + - s) <= 2 ^ prec)
      by (apply Z.pow_le_mono_r; lia).
    lia.
Qed.

Lemma rne_shift_lower (m : positive) :
  2 ^ (prec - 1) <= rne_shift (Z.pos m) (Z.pos (digits2_pos m) - prec).
Proof.
  pose proof (digits2_pos_bounds m) as [Hlo _].
  set (d := Z.pos (digits2_pos m)) in *.
  unfold rne_shift. destruct (Z.ltb_spec 0 (d - prec)) as [Hpos|Hneg].
  - pose proof (rne_div_bounds (Z.pos m) (2 ^ (d - prec))) as [Hlo' _].
    assert (0 < 2 ^ (d - prec)) by (apply Z.pow_pos_nonneg; lia).
    assert (2 ^ (prec - 1) <= Z.pos m / 2 ^ (d - prec)); [|lia].
    apply Z.div_le_lower_bound; [lia|].
    rewrite <- Z.pow_add_r by lia.
    by replace (d - prec + (prec - 1)) with (d - 1) by lia.
  - assert (0 < 2 ^ (- (d - prec))) by (apply Z.pow_pos_nonneg; lia).
    assert (2 ^ (d - 1) * 2 ^ (- (d - prec)) <= Z.pos m * 2 ^ (- (d - prec))) by nia.
    rewrite <- Z.pow_add_r in * by lia.
    by replace (d - 1 + - (d - prec)) with (prec - 1) in * by lia.
Qed.

Lemma fexp_ge (k : Z) : k - prec <= fexp prec emax k /\ emin prec emax <= fexp prec emax k.
Proof. unfold fexp. lia. Qed.

Lemma shr_fexp_rounded (n E : Z) :
  0 <= n <= 2 ^ prec -> emin prec emax <= E ->
  shr_fexp prec emax n E loc_Exact =
    if n =? 2 ^ prec
    then ({| shr_m := 2 ^ (prec - 1); shr_r := false; shr_s := false |}, E + 1)
    else ({| shr_m := n; shr_r := false; shr_s := false |}, E).
Proof.
  intros Hn HE. unfold shr_fexp. cbn [shr_record_of_loc].
  assert (0 < 2 ^ prec) by (apply Z.pow_pos_nonneg; lia).
  destruct (Z.eqb_spec n (2 ^ prec)) as [->|Hne].
  - assert (Zdigits2 (2 ^ prec) = prec + 1) as ->.
    { destruct (2 ^ prec) as [|p|p] eqn:Hp; try lia. cbn [Zdigits2].
      apply digits2_pos_unique. rewrite <- Hp.
      replace (prec + 1 - 1) with prec by lia.
      split; [lia|]. apply Z.pow_lt_mono_r; lia. }
    replace (fexp prec emax (prec + 1 + E) - E) with 1 by (unfold fexp; lia).
    cbn [shr SpecFloat.iter_pos]. rewrite shr_1_nonneg by lia.
    f_equal. f_equal.
    + replace prec with (prec - 1 + 1) at 1 by lia.
      rewrite Z.pow_add_r by lia. change (2 ^ 1) with 2. by rewrite Z.div_mul.
    + replace prec with (prec - 1 + 1) by lia.
      rewrite Z.pow_add_r by lia. change (2 ^ 1) with 2.
      rewrite Z.odd_mul. simpl. apply andb_false_r.
  - assert (fexp prec emax (Zdigits2 n + E) - E <= 0) as Hshift.
    { destruct n as [|p|p]; [unfold fexp; simpl; lia| |lia].
      cbn [Zdigits2]. pose proof (digits2_pos_bounds p) as [Hlo _].
      assert (Z.pos (digits2_pos p) - 1 < prec).
      { apply (Z.pow_lt_mono_r_iff 2); lia. }
      unfold fexp. lia. }
    unfold shr. by destruct (fexp prec emax (Zdigits2 n + E) - E); [| lia |].
Qed.

Lemma binary_round_aux_eq (s : bool) (mz : positive) (ez : Z) :
  ez <= grid_exp prec emax mz ez ->
  binary_round_aux prec emax s (Z.pos mz) ez loc_Exact =
    round_result prec emax s (rne_shift (Z.pos mz) (grid_exp prec emax mz ez - ez)) (grid_exp prec emax mz ez).
Proof.
  intros Hle. unfold binary_round_aux.
  assert (shr_fexp prec emax (Z.pos mz) ez loc_Exact =
            (shifted (Z.pos mz) (grid_exp prec emax mz ez - ez), grid_exp prec emax mz ez)) as ->.
  { unfold shr_fexp. cbn [shr_record_of_loc Zdigits2]. fold (grid_exp prec emax mz ez).
    unfold shr. destruct (grid_exp prec emax mz ez - ez) as [|p|p] eqn:Hs; [| |lia].
    - rewrite shifted_0. f_equal. lia.
    - rewrite <- shifted_0, iter_pos_shifted by lia. f_equal. lia. }
  assert (round_nearest_even (shr_m (shifted (Z.pos mz) (grid_exp prec emax mz ez - ez)))
            (loc_of_shr_record (shifted (Z.pos mz) (grid_exp prec emax mz ez - ez))) =
          rne_shift (Z.pos mz) (grid_exp prec emax mz ez - ez)) as ->.
  { unfold rne_shift. destruct (Z.ltb_spec 0 (grid_exp prec emax mz ez - ez)) as [Hpos|Hneg].
    - by apply round_shifted.
    - replace (grid_exp prec emax mz ez - ez) with 0 by lia. rewrite shifted_0. simpl. lia. }
  pose proof (rne_shift_upper mz (grid_exp prec emax mz ez - ez)) as Hn.
  pose proof (fexp_ge (Z.pos (digits2_pos mz) + ez)) as [Hge Hmin].
  fold (grid_exp prec emax mz ez) in Hge, Hmin.
  rewrite shr_fexp_rounded by (try apply Hn; lia).
  unfold round_result, normal.
  set (n := rne_shift (Z.pos mz) (grid_exp prec emax mz ez - ez)) in *.
  assert (0 < 2 ^ (prec - 1)) by (apply Z.pow_pos_nonneg; lia).
  assert (0 < 2 ^ prec) by (apply Z.pow_pos_nonneg; lia).
  destruct (Z.eqb_spec n (2 ^ prec)) as [Heq|Hne]; cbn [shr_m].
  - destruct (2 ^ (prec - 1)) as [|p|p] eqn:Hp; try lia. done.
  - destruct n as [|p|p] eqn:Hp; try done. lia.
Qed.

Lemma iter_xO (m d : positive) : Z.pos (Pos.iter xO m d) = Z.pos m * 2 ^ Z.pos d.
Proof.
  revert m. induction d as [|d IHd] using Pos.peano_ind; intros m.
  - simpl. lia.
  - rewrite Pos.iter_succ, Pos2Z.inj_xO, IHd, Pos2Z.inj_succ, Z.pow_succ_r by lia. lia.
Qed.

Theorem binary_round_eq (s : bool) (m : positive) (e : Z) :
  binary_round prec emax s m e = round_result prec emax s (rounded prec emax m e) (grid_exp prec emax m e).
Proof.
  unfold binary_round, shl_align, rounded. fold (grid_exp prec emax m e).
  destruct (grid_exp prec emax m e - e) as [|p|d] eqn:Hs.
  - rewrite binary_round_aux_eq by lia. by rewrite Hs.
  - rewrite binary_round_aux_eq by lia. by rewrite Hs.
  - assert (Z.pos (digits2_pos (Pos.iter xO m d)) = Z.pos (digits2_pos m) + Z.pos d)
      as Hdig.
    { apply digits2_pos_unique. rewrite iter_xO.
      pose proof (digits2_pos_bounds m) as [Hlo Hhi].
      assert (0 < 2 ^ Z.pos d) by (apply Z.pow_pos_nonneg; lia).
      replace (Z.pos (digits2_pos m) + Z.pos d - 1)
        with (Z.pos (digits2_pos m) - 1 + Z.pos d) by lia.
      rewrite !Z.pow_add_r by lia. nia. }
    assert (grid_exp prec emax (Pos.iter xO m d) (grid_exp prec emax m e) = grid_exp prec emax m e) as Hgrid.
    { unfold grid_exp at 1. rewrite Hdig. unfold grid_exp. f_equal.
      fold (grid_exp prec emax m e). lia. }
    rewrite binary_round_aux_eq by (rewrite Hgrid; lia). rewrite Hgrid, Z.sub_diag.
    f_equal. unfold rne_shift.
    change (0 <? 0) with false. change (0 <? Z.neg d) with false.
    change (- Z.neg d) with (Z.pos d). change (- 0) with 0.
    rewrite iter_xO, Z.pow_0_r. lia.
Qed.

Lemma rounded_rneQ (m : positive) (e : Z) :
  rounded prec emax m e =
    rneQ (value (Z.pos m) e * 2 ^ (- grid_exp prec emax m e))%Q.
Proof.
  unfold rounded. rewrite rne_shift_rneQ. apply rneQ_compat.
  replace (- (grid_exp prec emax m e - e)) with (e + - grid_exp prec emax m e) by lia.
  apply value_shift.
Qed.

Lemma rounded_bounds (m : positive) (e : Z) :
  0 <= rounded prec emax m e <= 2 ^ prec.
Proof.
  apply rne_shift_upper.
  pose proof (fexp_ge (Z.pos (digits2_pos m) + e)).
  unfold grid_exp. lia.
Qed.

Lemma rounded_lower (m : positive) (e : Z) :
  emin prec emax < grid_exp prec emax m e ->
  2 ^ (prec - 1) <= rounded prec emax m e.
Proof.
  intros Hgrid. unfold rounded.
  replace (grid_exp prec emax m e - e) with (Z.pos (digits2_pos m) - prec).
  - apply rne_shift_lower.
  - unfold grid_exp, fexp in *. lia.
Qed.

Lemma grid_exp_mono (m1 m2 : positive) (e1 e2 : Z) :
  (value (Z.pos m1) e1 <= value (Z.pos m2) e2)%Q ->
  grid_exp prec emax m1 e1 <= grid_exp prec emax m2 e2.
Proof.
  intros Hle%digits_mono. unfold grid_exp, fexp. lia.
Qed.

Lemma rounded_mono (m1 m2 : positive) (e1 e2 : Z) :
  (value (Z.pos m1) e1 <= value (Z.pos m2) e2)%Q ->
  grid_exp prec emax m1 e1 = grid_exp prec emax m2 e2 ->
  rounded prec emax m1 e1 <= rounded prec emax m2 e2.
Proof.
  intros Hle Hgrid. rewrite !rounded_rneQ, Hgrid. apply rneQ_mono.
  by apply Qmult_le_compat_r; [|apply Qlt_le_weak, pow2_pos].
Qed.


Lemma normal_bounds (n E : Z) :
  0 <= n <= 2 ^ prec -> 0 <= fst (normal prec n E) < 2 ^ prec.
Proof.
  intros Hn. unfold normal.
  assert (0 < 2 ^ (prec - 1) < 2 ^ prec).
  { split; [apply Z.pow_pos_nonneg; lia|apply Z.pow_lt_mono_r; lia]. }
  destruct (Z.eqb_spec n (2 ^ prec)); simpl; lia.
Qed.

Lemma normal_value (n E : Z) :
  (value (fst (normal prec n E)) (snd (normal prec n E)) == value n E)%Q.
Proof.
  unfold normal. destruct (Z.eqb_spec n (2 ^ prec)) as [->|Hne]; simpl; [|reflexivity].
  rewrite !value_pow2 by lia. by replace (prec - 1 + (E + 1)) with (prec + E) by lia.
Qed.

Lemma ordered_value (n1 E1 n2 E2 : Z) :
  ordered prec n1 E1 n2 E2 -> (value n1 E1 <= value n2 E2)%Q.
Proof.
  intros (Hn1 & Hn2 & HE & Hsame & Hless).
  destruct (Z.eq_dec E1 E2) as [->|Hne].
  - apply value_le_same. by apply Hsame.
  - apply Qle_trans with (value (2 ^ prec) E1); [apply value_le_same; lia|].
    apply Qle_trans with (value (2 ^ (prec - 1)) E2);
      [|apply value_le_same, Hless; lia].
    rewrite !value_pow2 by lia. apply Qpower_le_compat_l; [lia|done].
Qed.

Lemma ordered_normal (n1 E1 n2 E2 : Z) :
  ordered prec n1 E1 n2 E2 ->
  snd (normal prec n1 E1) <= snd (normal prec n2 E2) /\
  (value (fst (normal prec n1 E1)) (snd (normal prec n1 E1)) <=
   value (fst (normal prec n2 E2)) (snd (normal prec n2 E2)))%Q.
Proof.
  intros Hord. split.
  - destruct Hord as (Hn1 & Hn2 & HE & Hsame & Hless). unfold normal.
    destruct (Z.eqb_spec n1 (2 ^ prec)), (Z.eqb_spec n2 (2 ^ prec)); simpl; lia.
  - rewrite !normal_value. by apply ordered_value.
Qed.

Lemma rounding_ordered (m1 m2 : positive) (e1 e2 : Z) :
  (value (Z.pos m1) e1 <= value (Z.pos m2) e2)%Q ->
  ordered prec (rounded prec emax m1 e1) (grid_exp prec emax m1 e1)
    (rounded prec emax m2 e2) (grid_exp prec emax m2 e2).
Proof.
  intros Hle. split; [apply rounded_bounds|]. split; [apply rounded_bounds|].
  split; [by apply grid_exp_mono|]. split; [by apply rounded_mono|].
  intros Hlt. apply rounded_lower.
  pose proof (fexp_ge (Z.pos (digits2_pos m1) + e1)) as [_ Hmin].
  fold (grid_exp prec emax m1 e1) in Hmin. lia.
Qed.

(** The value of a result. *)
Lemma leb_num (a b : Q) :
  fval_leb (FNum (Q2Qc a)) (FNum (Q2Qc b)) = true <-> (a <= b)%Q.
Proof. simpl. by rewrite Qle_bool_iff, !Qred_correct. Qed.

Lemma leb_neg (a b : fval) :
  fval_leb a b = true -> fval_leb (float_neg b) (float_neg a) = true.
Proof.
  destruct a as [|[]|x], b as [|[]|y]; simpl; try done.
  rewrite !Qle_bool_iff, !Qred_correct. apply Qopp_le_compat.
Qed.

Lemma neg_zero : float_neg (FNum (Q2Qc 0)) = FNum (Q2Qc 0).
Proof. reflexivity. Qed.

Lemma fval_of_result (s : bool) (n E : Z) :
  fval_of_float (round_result prec emax s n E) =
    if fst (normal prec n E) =? 0 then FNum (Q2Qc 0)
    else if snd (normal prec n E) <=? emax - prec
    then FNum (Q2Qc (if s then - magnitude (Z.to_pos (fst (normal prec n E)))
                                   (snd (normal prec n E))
                     else magnitude (Z.to_pos (fst (normal prec n E)))
                            (snd (normal prec n E))))
    else FInf s.
Proof.
  unfold round_result. destruct (normal prec n E) as [n' E']. simpl.
  destruct (n' =? 0); [done|]. by destruct (E' <=? emax - prec).
Qed.

Lemma fval_of_result_neg (n E : Z) :
  fval_of_float (round_result prec emax true n E) =
    float_neg (fval_of_float (round_result prec emax false n E)).
Proof.
  rewrite !fval_of_result.
  destruct (_ =? 0); [done|]. destruct (_ <=? _); [|done].
  cbn [float_neg]. f_equal. unfold Qcopp. apply Q2Qc_eq_iff.
  cbn [this Q2Qc]. by rewrite Qred_correct.
Qed.

Lemma fval_of_result_not_nan (s : bool) (n E : Z) :
  fval_of_float (round_result prec emax s n E) <> FNan.
Proof.
  rewrite fval_of_result. destruct (_ =? 0); [done|]. by destruct (_ <=? _).
Qed.

Lemma magnitude_pos (m : positive) (e : Z) : (0 < magnitude m e)%Q.
Proof.
  rewrite magnitude_value. unfold value.
  apply Qmult_lt_0_compat; [|apply pow2_pos]. by rewrite <- (Zlt_Qlt 0).
Qed.

Lemma result_nonneg (n E : Z) :
  fval_leb (FNum (Q2Qc 0)) (fval_of_float (round_result prec emax false n E)) = true.
Proof.
  rewrite fval_of_result. destruct (_ =? 0); [done|]. destruct (_ <=? _); [|done].
  apply leb_num, Qlt_le_weak, magnitude_pos.
Qed.

Lemma result_mono (n1 E1 n2 E2 : Z) :
  ordered prec n1 E1 n2 E2 ->
  fval_leb (fval_of_float (round_result prec emax false n1 E1))
    (fval_of_float (round_result prec emax false n2 E2)) = true.
Proof.
  intros Hord. pose proof (ordered_normal _ _ _ _ Hord) as [HE Hval].
  destruct Hord as (Hn1 & Hn2 & _).
  pose proof (normal_bounds n1 E1 Hn1) as Hb1.
  pose proof (normal_bounds n2 E2 Hn2) as Hb2.
  rewrite !fval_of_result.
  destruct (normal prec n1 E1) as [a1 x1], (normal prec n2 E2) as [a2 x2].
  simpl in *.
  destruct (Z.eqb_spec a2 0) as [->|Ha2].
  - assert (a1 <= 0) as Ha1.
    { apply (value_le_same _ _ x1). eapply Qle_trans; [exact Hval|].
      unfold value. rewrite !Qmult_0_l. apply Qle_refl. }
    by replace (a1 =? 0) with true by lia.
  - destruct (Z.leb_spec x2 (emax - prec)) as [Hx2|Hx2].
    + destruct (Z.eqb_spec a1 0) as [->|Ha1];
        [apply leb_num, Qlt_le_weak, magnitude_pos|].
      replace (x1 <=? emax - prec) with true by lia.
      apply leb_num. rewrite !magnitude_value, !Z2Pos.id by lia. exact Hval.
    + destruct (a1 =? 0); [done|]. by destruct (x1 <=? emax - prec).
Qed.

Lemma binary_round_not_nan (s : bool) (m : positive) (e : Z) :
  fval_of_float (binary_round prec emax s m e) <> FNan.
Proof. rewrite binary_round_eq. apply fval_of_result_not_nan. Qed.

Lemma binary_round_neg (m : positive) (e : Z) :
  fval_of_float (binary_round prec emax true m e) =
    float_neg (fval_of_float (binary_round prec emax false m e)).
Proof. rewrite !binary_round_eq. apply fval_of_result_neg. Qed.

Lemma binary_round_nonneg (m : positive) (e : Z) :
  fval_leb (FNum (Q2Qc 0)) (fval_of_float (binary_round prec emax false m e)) = true.
Proof. rewrite binary_round_eq. apply result_nonneg. Qed.

Lemma binary_round_mono (m1 m2 : positive) (e1 e2 : Z) :
  (magnitude m1 e1 <= magnitude m2 e2)%Q ->
  fval_leb (fval_of_float (binary_round prec emax false m1 e1))
    (fval_of_float (binary_round prec emax false m2 e2)) = true.
Proof.
  rewrite !magnitude_value. intros Hle.
  rewrite !binary_round_eq.
  by apply result_mono, rounding_ordered.
Qed.

Lemma leb_below (a : fval) : a <> FNan -> fval_leb (FInf true) a = true.
Proof. by destruct a as [|[]|x]. Qed.

Lemma leb_above (a : fval) : a <> FNan -> fval_leb a (FInf false) = true.
Proof. by destruct a as [|[]|x]. Qed.

(** Rounding to the format is monotone. *)
Theorem round_float_mono (a b : spec_float) :
  fval_leb (fval_of_float a) (fval_of_float b) = true ->
  fval_leb (fval_of_float (round_float prec emax a))
    (fval_of_float (round_float prec emax b)) = true.
Proof.
  destruct a as [sa|sa| |sa ma ea], b as [sb|sb| |sb mb eb];
    cbn [round_float]; try done.
  - (* zero, finite *)
    destruct sb.
    + intros Hle%leb_num. exfalso.
      pose proof (magnitude_pos mb eb) as Hpos. unfold magnitude in Hpos. lra.
    + intros _. apply binary_round_nonneg.
  - (* infinity, finite *)
    destruct sa; [|done]. intros _. apply leb_below, binary_round_not_nan.
  - (* finite, zero *)
    destruct sa.
    + intros _. change (fval_of_float (S754_zero sb)) with (FNum (Q2Qc 0)).
      rewrite binary_round_neg, <- neg_zero.
      apply leb_neg, binary_round_nonneg.
    + intros Hle%leb_num. exfalso.
      pose proof (magnitude_pos ma ea) as Hpos. unfold magnitude in Hpos. lra.
  - (* finite, infinity *)
    destruct sb; [done|]. intros _. apply leb_above, binary_round_not_nan.
  - (* finite, finite *)
    intros Hle%leb_num. fold (magnitude ma ea) (magnitude mb eb) in Hle.
    pose proof (magnitude_pos ma ea). pose proof (magnitude_pos mb eb).
    destruct sa, sb.
    + rewrite !binary_round_neg. apply leb_neg, binary_round_mono. lra.
    + rewrite binary_round_neg.
      apply SilenceProofs.fval_leb_trans with (FNum (Q2Qc 0)); [|apply binary_round_nonneg].
      rewrite <- neg_zero. apply leb_neg, binary_round_nonneg.
    + lra.
    + by apply binary_round_mono.
Qed.

End Format.

End RoundingProofs.

(** *** audio_utils.py: stereo normalisation *)

Module StereoProofs.
Import AudioUtils.

Section WithResample.
Context {A : Type}.
Variable resample : tensor A -> Z -> Z -> result (tensor A).

(** No resampling when the source already is at the target rate. *)
Lemma resample_if_needed_same (audio : tensor A) (target_sr : Z) :
  resample_if_needed resample audio target_sr target_sr = Ok audio.
Proof.
  unfold resample_if_needed.
  by rewrite bool_decide_eq_false_2 by (intros Hne; by apply Hne).
Qed.

Lemma normalize_at_target_rate (audio : tensor A) (target_sr : Z) :
  normalize_audio_to_stereo_48k resample audio target_sr target_sr =
    Ok (to_stereo audio).
Proof.
  unfold normalize_audio_to_stereo_48k. by rewrite resample_if_needed_same.
Qed.

(** The channel step leaves two channels, or none when there was none. *)
Lemma to_stereo_length (audio : tensor A) :
  length (to_stereo audio) = if Nat.eqb (length audio) 0 then 0%nat else 2%nat.
Proof.
  unfold to_stereo.
  destruct (Nat.eqb_spec (length audio) 1) as [H1|H1].
  - rewrite PyFacts.length_list_mul, H1. reflexivity.
  - destruct (Nat.ltb_spec 2 (length audio)) as [H2|H2].
    + rewrite length_take. destruct (Nat.eqb_spec (length audio) 0); lia.
    + destruct (Nat.eqb_spec (length audio) 0) as [H0|H0]; lia.
Qed.

(** A buffer the channel step produced is a fixed point of it. *)
Lemma to_stereo_fixed (audio : tensor A) :
  to_stereo (to_stereo audio) = to_stereo audio.
Proof.
  pose proof (to_stereo_length audio) as Hlen.
  unfold to_stereo at 1.
  destruct (Nat.eqb (length audio) 0); by rewrite Hlen.
Qed.

(** C7. Normalising an already normalised buffer, at source rate equal
    to the target rate, changes nothing: the operation is idempotent.
    Applying it twice is applying it once, also when the one call raises. *)
Theorem normalize_stereo_idempotent (audio : tensor A) (sr target_sr : Z) :
  (normalize_audio_to_stereo_48k resample audio sr target_sr ≫=
     fun out => normalize_audio_to_stereo_48k resample out target_sr target_sr)
  = normalize_audio_to_stereo_48k resample audio sr target_sr /\
  (forall out,
     normalize_audio_to_stereo_48k resample audio sr target_sr = Ok out ->
     normalize_audio_to_stereo_48k resample out target_sr target_sr = Ok out).
Proof.
  assert (forall out,
            normalize_audio_to_stereo_48k resample audio sr target_sr = Ok out ->
            normalize_audio_to_stereo_48k resample out target_sr target_sr = Ok out)
    as Hfix.
  { intros out. unfold normalize_audio_to_stereo_48k at 1.
    destruct (resample_if_needed resample audio sr target_sr) as [converted|e];
      simpl; [|done].
    intros [= <-]. rewrite normalize_at_target_rate. f_equal.
    apply to_stereo_fixed. }
  split; [|exact Hfix].
  destruct (normalize_audio_to_stereo_48k resample audio sr target_sr)
    as [out|e] eqn:Hrun; simpl; [|done].
  by apply Hfix.
Qed.

(** C3, amended. For a buffer of at least one channel, at a source rate
    from which the resampling step (taken only when the rates differ)
    returns a buffer of as many channels at the target rate: the result
    has exactly two channels, at the target rate; after the resampling
    step one channel is duplicated, more than two are cut to the first
    two, two are passed through. *)
Theorem normalize_stereo_channels
    (at_rate : list A -> Z -> Prop) (audio : tensor A) (sr target_sr : Z) :
  (1 <= length audio)%nat ->
  (forall c, c ∈ audio -> at_rate c sr) ->
  (sr <> target_sr ->
   exists resampled,
     resample audio sr target_sr = Ok resampled /\
     length resampled = length audio /\
     forall c, c ∈ resampled -> at_rate c target_sr) ->
  exists converted out,
    resample_if_needed resample audio sr target_sr = Ok converted /\
    normalize_audio_to_stereo_48k resample audio sr target_sr = Ok out /\
    length out = 2%nat /\
    (forall c, c ∈ out -> at_rate c target_sr) /\
    (forall c, converted = [c] -> out = [c; c]) /\
    ((2 < length converted)%nat -> out = take 2 converted) /\
    (length converted = 2%nat -> out = converted).
Proof.
  intros Hlen Hin Hres.
  assert (exists converted,
            resample_if_needed resample audio sr target_sr = Ok converted /\
            (1 <= length converted)%nat /\
            forall c, c ∈ converted -> at_rate c target_sr)
    as (converted & Hconv & Hlen' & Hrate).
  { unfold resample_if_needed. destruct (decide (sr = target_sr)) as [Heq|Hne].
    - rewrite bool_decide_eq_false_2 by (intros Hne; by apply Hne).
      exists audio. split; [done|]. split; [done|]. by rewrite <- Heq.
    - rewrite bool_decide_eq_true_2 by done.
      destruct (Hres Hne) as (resampled & Hrun & Hsame & Hat).
      exists resampled. split; [done|]. split; [lia|done]. }
  exists converted, (to_stereo converted).
  split; [exact Hconv|].
  split; [unfold normalize_audio_to_stereo_48k; by rewrite Hconv|].
  split; [|split; [|split; [|split]]].
  - rewrite to_stereo_length. destruct (Nat.eqb_spec (length converted) 0); lia.
  - intros c. unfold to_stereo. destruct (Nat.eqb _ 1).
    + rewrite PyFacts.list_mul_two, elem_of_app. intros [?|?]; by apply Hrate.
    + destruct (Nat.ltb 2 _); [|by apply Hrate].
      intros Hc%subseteq_take. by apply Hrate.
  - intros c ->. reflexivity.
  - intros H2. unfold to_stereo.
    destruct (Nat.eqb_spec (length converted) 1); [lia|].
    destruct (Nat.ltb_spec 2 (length converted)); [done|lia].
  - intros H2. unfold to_stereo. by rewrite H2.
Qed.
End WithResample.

Lemma normalize_stereo_channels_witness :
  let audio := [[1; 2; 3; 4]]%Z in
  (1 <= length audio)%nat /\
  (forall c, c ∈ audio -> Sample.lasts_one_tick c 96000) /\
  exists converted out,
    resample_if_needed Sample.halve audio 96000 48000 = Ok converted /\
    normalize_audio_to_stereo_48k Sample.halve audio 96000 48000 = Ok out /\
    length out = 2%nat /\
    (forall c, c ∈ out -> Sample.lasts_one_tick c 48000).
Proof.
  intros audio.
  assert (1 <= length audio)%nat as Hlen by (simpl; lia).
  assert (forall c, c ∈ audio -> Sample.lasts_one_tick c 96000) as Hin.
  { intros c Hc. apply list_elem_of_singleton in Hc as ->. reflexivity. }
  assert ((96000 <> 48000)%Z ->
          exists resampled,
            Sample.halve audio 96000 48000 = Ok resampled /\
            length resampled = length audio /\
            forall c, c ∈ resampled -> Sample.lasts_one_tick c 48000) as Hres.
  { intros _. exists [[1; 3]]%Z. split; [reflexivity|]. split; [reflexivity|].
    intros c Hc. apply list_elem_of_singleton in Hc as ->. reflexivity. }
  split; [exact Hlen|]. split; [exact Hin|].
  destruct (normalize_stereo_channels Sample.halve Sample.lasts_one_tick
              audio 96000 48000 Hlen Hin Hres)
    as (converted & out & Hconv & Hrun & H2 & Hrate & _).
  exists converted, out.
  split; [exact Hconv|]. split; [exact Hrun|]. split; [exact H2|]. exact Hrate.
Defined.

(** C3, as stated, fails on a buffer without channels that already is at
    the target rate: no resampling takes place and the buffer comes back
    as it is, without channels. *)
Lemma stereo_zero_channels_counterexample :
  normalize_audio_to_stereo_48k Sample.halve ([] : tensor Q) 48000 48000 = Ok [] /\
  ~ exists out,
      normalize_audio_to_stereo_48k Sample.halve ([] : tensor Q) 48000 48000 = Ok out /\
      length out = 2%nat.
Proof.
  split; [reflexivity|]. intros (out & Hrun & Hlen).
  injection Hrun as <-. discriminate Hlen.
Qed.

End StereoProofs.

(** *** audio_utils.py: batch-shaped parameters *)

Module BatchProofs.
Import AudioUtils Contract.

(** A list of the batch size comes back as it is, whichever branch the
    length selects. *)
Lemma normalize_audio_code_hints_same_length (l : list pyval) :
  normalize_audio_code_hints (PList l) (Z.of_nat (length l)) = Ok l.
Proof.
  unfold normalize_audio_code_hints.
  destruct l as [|a [|b l]]; simpl length.
  - reflexivity.
  - simpl. by rewrite PyFacts.list_mul_one.
  - cbn [Nat.eqb]. by rewrite Z.eqb_refl.
Qed.



End BatchProofs.

(** *** audio_utils.py: padding *)

Module PaddingProofs.
Import AudioUtils Contract.

Section Rows.
Context {A : Type}.
Implicit Types (seq row : list A) (sequences padded : tensor A).

Lemma pad_loop_length max_length sequences : forall i padded,
  length (pad_loop max_length i sequences padded) = length padded.
Proof.
  induction sequences as [|seq rest IH]; intros i padded; cbn [pad_loop]; [done|].
  rewrite IH. unfold pad_row. apply length_alter.
Qed.

(** Rows below the running index are left alone. *)
Lemma pad_loop_lookup_lt max_length sequences : forall i padded j,
  (j < i)%nat ->
  pad_loop max_length i sequences padded !! j = padded !! j.
Proof.
  induction sequences as [|seq rest IH]; intros i padded j Hj; cbn [pad_loop]; [done|].
  rewrite IH by lia. unfold pad_row. apply list_lookup_alter_ne. lia.
Qed.

(** The loop invariant: row [i + k] receives the [k]-th sequence. *)
Lemma pad_loop_lookup_ge max_length sequences : forall i padded k seq,
  sequences !! k = Some seq ->
  pad_loop max_length i sequences padded !! (i + k)%nat =
    write_row max_length seq <$> padded !! (i + k)%nat.
Proof.
  induction sequences as [|s rest IH]; intros i padded k seq Hk; [done|].
  destruct k as [|k]; simpl in Hk; cbn [pad_loop].
  - injection Hk as ->. rewrite Nat.add_0_r.
    rewrite pad_loop_lookup_lt by lia.
    unfold pad_row. apply list_lookup_alter_eq.
  - replace (i + S k)%nat with (S i + k)%nat by lia.
    rewrite (IH (S i) _ k seq Hk).
    unfold pad_row. rewrite list_lookup_alter_ne by lia. done.
Qed.

(** Writing a prefix of [seq] over a row of padding gives the padded row. *)
Lemma write_row_over_padding (max_length : nat) seq (pad_value : A) :
  write_row (Z.of_nat max_length) seq (replicate max_length pad_value) =
    padded_row seq max_length pad_value.
Proof.
  unfold write_row, assign_prefix, padded_row.
  replace (Z.to_nat (Z.min (Z.of_nat (length seq)) (Z.of_nat max_length)))
    with (Nat.min (length seq) max_length) by lia.
  rewrite length_take, drop_replicate.
  do 2 f_equal. lia.
Qed.

Lemma padded_row_length seq (max_length : nat) (pad_value : A) :
  length (padded_row seq max_length pad_value) = max_length.
Proof.
  unfold padded_row. rewrite length_app, length_take, length_replicate. lia.
Qed.

(** A sequence longer than [max_length] is cut, not extended. *)
Lemma padded_row_truncates seq (max_length : nat) (pad_value : A) :
  (max_length <= length seq)%nat ->
  padded_row seq max_length pad_value = take max_length seq.
Proof.
  intros Hlen. unfold padded_row.
  rewrite Nat.min_r by done. rewrite Nat.sub_diag. apply app_nil_r.
Qed.

Lemma pad_sequences_rows sequences (max_length : nat) (pad_value : A) :
  sequences <> [] ->
  exists padded,
    pad_sequences sequences (Z.of_nat max_length) pad_value = Ok padded /\
    length padded = length sequences /\
    (forall i seq, sequences !! i = Some seq ->
       padded !! i = Some (padded_row seq max_length pad_value)).
Proof.
  intros Hne. unfold pad_sequences, full.
  destruct sequences as [|s0 rest] eqn:E; [done|]. rewrite <- E. clear E Hne.
  destruct (Z.ltb_spec (Z.of_nat max_length) 0) as [Hneg|_]; [lia|].
  rewrite Nat2Z.id. simpl. eexists. split; [reflexivity|].
  split; [by rewrite pad_loop_length, length_replicate|].
  intros i seq Hi.
  rewrite (pad_loop_lookup_ge _ _ 0 _ i seq Hi). simpl.
  rewrite lookup_replicate_2 by (by eapply lookup_lt_Some).
  simpl. by rewrite write_row_over_padding.
Qed.
End Rows.

(** C5. For a non-empty list of sequences and a length [max_length],
    [pad_sequences] returns an array of [len(sequences)] rows of
    [max_length] elements each; row [i] holds the first
    [min(len(sequence_i), max_length)] elements of sequence [i], then
    [pad_value]; a longer sequence is cut to [max_length]; and
    [pad_sequences([[1,2,3],[4,5]], 4, 0)] is [[[1,2,3,0],[4,5,0,0]]]. *)
Theorem pad_sequences_contract {A} (sequences : tensor A) (max_length : nat)
    (pad_value : A) :
  sequences <> [] ->
  (exists padded,
     pad_sequences sequences (Z.of_nat max_length) pad_value = Ok padded /\
     length padded = length sequences /\
     (forall row, row ∈ padded -> length row = max_length) /\
     (forall i seq, sequences !! i = Some seq ->
        padded !! i =
          Some (take (Nat.min (length seq) max_length) seq ++
                replicate (max_length - Nat.min (length seq) max_length) pad_value)) /\
     (forall i seq, sequences !! i = Some seq -> (max_length <= length seq)%nat ->
        padded !! i = Some (take max_length seq))) /\
  pad_sequences [[1; 2; 3]; [4; 5]]%Z 4 0%Z = Ok [[1; 2; 3; 0]; [4; 5; 0; 0]]%Z.
Proof.
  intros Hne. split; [|reflexivity].
  destruct (pad_sequences_rows sequences max_length pad_value Hne)
    as (padded & Hrun & Hlen & Hrows).
  exists padded. split; [exact Hrun|]. split; [exact Hlen|]. split; [|split].
  - intros row Hrow.
    apply list_elem_of_lookup in Hrow as [i Hi].
    assert (i < length sequences)%nat as Hlt
      by (rewrite <- Hlen; by eapply lookup_lt_Some).
    apply lookup_lt_is_Some in Hlt as [seq Hseq].
    rewrite (Hrows i seq Hseq) in Hi. injection Hi as <-.
    apply padded_row_length.
  - exact Hrows.
  - intros i seq Hseq Hlong.
    rewrite (Hrows i seq Hseq). f_equal. by apply padded_row_truncates.
Qed.

Lemma pad_sequences_contract_witness :
  [[1; 2; 3]; [4; 5]]%Z <> [] /\
  exists padded,
    pad_sequences [[1; 2; 3]; [4; 5]]%Z 2 0%Z = Ok padded /\
    length padded = 2%nat /\
    (forall row, row ∈ padded -> length row = 2%nat).
Proof.
  assert ([[1; 2; 3]; [4; 5]]%Z <> []) as Hne by discriminate.
  split; [exact Hne|].
  destruct (pad_sequences_contract [[1; 2; 3]; [4; 5]]%Z 2 0%Z Hne)
    as [(padded & Hrun & Hlen & Hrows & _) _].
  exists padded. split; [exact Hrun|]. split; [exact Hlen|]. exact Hrows.
Defined.

End PaddingProofs.

(** *** metadata_builder.py: the metadata text block *)

Module MetaStringProofs.
Import MetadataBuilder Contract.

Section WithBuiltins.
Context {B : Builtins}.

(** Nested [.get] calls are a fallback chain on key presence. *)
Lemma dict_get_chain2 (m : gmap string pyval) (k1 k2 : string) (dflt : pyval) :
  dict_get m k1 (dict_get m k2 dflt) = first_present m [k1; k2] dflt.
Proof. reflexivity. Qed.

Lemma dict_get_chain3 (m : gmap string pyval) (k1 k2 k3 : string) (dflt : pyval) :
  dict_get m k1 (dict_get m k2 (dict_get m k3 dflt)) =
    first_present m [k1; k2; k3] dflt.
Proof. reflexivity. Qed.

(** A present key shadows the rest of its chain, whatever it holds. *)
Lemma first_present_head (m : gmap string pyval) k rest dflt v :
  m !! k = Some v -> first_present m (k :: rest) dflt = v.
Proof. intros Hk. simpl. by rewrite Hk. Qed.

Lemma first_present_skip (m : gmap string pyval) k rest dflt :
  m !! k = None -> first_present m (k :: rest) dflt = first_present m rest dflt.
Proof. intros Hk. simpl. by rewrite Hk. Qed.

(** The formatter words the duration, then prints the three other fields
    in order, and returns the block of the four texts. *)
Lemma dict_to_meta_string_resolved (m : gmap string pyval) :
  dict_to_meta_string m =
    text ← format_duration (first_present m ["duration"; "length"] (PInt 30));
    b ← format (first_present m ["bpm"; "tempo"] (PStr "N/A"));
    t ← format (first_present m ["timesignature"; "time_signature"] (PStr "N/A"));
    k ← format (first_present m ["keyscale"; "key"; "scale"] (PStr "N/A"));
    mret (meta_block b t k text).
Proof. reflexivity. Qed.

(** The integer of a numeric duration is one integer. *)
Lemma duration_integer_unique (v : pyval) (z z' : Z) :
  duration_integer v z -> duration_integer v z' -> z = z'.
Proof.
  intros Hz Hz'. destruct Hz; inversion Hz'; subst; try done.
  by eapply PyFacts.truncation_of_unique.
Qed.

(** The duration step on a numeric value prints one integer, the one the
    contract names. *)
Lemma format_duration_numeric (v : pyval) (z : Z) :
  duration_integer v z ->
  format_duration v = (text ← str_int z; mret (text +:+ " seconds")).
Proof.
  intros Hz. destruct Hz as [z|b|s|s m e t Ht]; try reflexivity.
  destruct (PyFacts.int_of_float_finite s m e) as (t' & Hrun & Ht').
  rewrite (PyFacts.truncation_of_unique s m e t t' Ht Ht').
  unfold format_duration. by rewrite Hrun.
Qed.

(** A numeric duration whose integer the interpreter prints is worded as
    that integer followed by " seconds". *)
Lemma format_duration_integer (v : pyval) (z : Z) :
  duration_integer v z -> within_limit z ->
  format_duration v = Ok (str_of_int z +:+ " seconds").
Proof.
  intros Hz Hlim.
  by rewrite (format_duration_numeric v z Hz), (PyFacts.str_int_within z Hlim).
Qed.

(** A numeric duration whose integer is beyond the limit makes the
    duration step raise [ValueError]. *)
Lemma format_duration_beyond (v : pyval) (z : Z) :
  duration_integer v z -> ~ within_limit z ->
  exists msg, format_duration v = Raise (ValueError msg).
Proof.
  intros Hz Hlim. rewrite (format_duration_numeric v z Hz).
  destruct (PyFacts.str_int_beyond z Hlim) as [msg ->]. simpl. eauto.
Qed.

(** Every finite numeric value has its integer. *)
Lemma duration_integer_exists (v : pyval) :
  is_numeric v = true -> non_finite v = false -> exists z, duration_integer v z.
Proof.
  destruct v as [| b | z | f | | | |]; try discriminate; intros _ Hfin.
  - eexists. constructor.
  - eexists. constructor.
  - destruct f as [s | s | | s m e]; try discriminate Hfin.
    + eexists. constructor.
    + destruct (PyFacts.int_of_float_finite s m e) as (t & _ & Ht).
      exists t. by constructor.
Qed.

(** Away from NaN and the infinities, and within the digit limit, the
    duration step returns, with the wording of the contract. *)
Lemma format_duration_text (v : pyval) :
  non_finite v = false ->
  (forall z, duration_integer v z -> within_limit z) ->
  exists text, format_duration v = Ok text /\ duration_text v text.
Proof.
  intros Hfin Hlim.
  destruct (is_numeric v) eqn:Hnum.
  - destruct (duration_integer_exists v Hnum Hfin) as [z Hz].
    exists (str_of_int z +:+ " seconds").
    split; [by apply format_duration_integer; [|apply Hlim]|].
    destruct Hz; by constructor.
  - destruct v; try discriminate Hnum; eexists;
      (split; [reflexivity | constructor]).
Qed.

(** An infinite duration raises [OverflowError], a NaN [ValueError]. *)
Lemma format_duration_non_finite (v : pyval) :
  non_finite v = true ->
  (exists s msg, v = PFloat (S754_infinity s) /\
                 format_duration v = Raise (OverflowError msg)) \/
  (exists msg, v = PFloat S754_nan /\ format_duration v = Raise (ValueError msg)).
Proof.
  destruct v as [| | | f | | | |]; try discriminate.
  destruct f as [s | s | | s m e]; try discriminate; intros _; simpl.
  - left. eauto.
  - right. eauto.
Qed.

(** When the duration step returns. *)
Lemma format_duration_returns_iff (v : pyval) :
  (exists text, format_duration v = Ok text) <->
  non_finite v = false /\ (forall z, duration_integer v z -> within_limit z).
Proof.
  split.
  - intros [text Hrun]. split.
    + destruct (non_finite v) eqn:E; [|done].
      destruct (format_duration_non_finite v E)
        as [(s & msg & _ & Hr)|(msg & _ & Hr)]; congruence.
    + intros z Hz.
      destruct (over_limit z) eqn:E; [|by apply PyFacts.over_limit_false_iff].
      assert (~ within_limit z) as Hno.
      { intros Hw. apply PyFacts.over_limit_false_iff in Hw. congruence. }
      destruct (format_duration_beyond v z Hz Hno) as [msg Hr]. congruence.
  - intros [Hfin Hlim].
    destruct (format_duration_text v Hfin Hlim) as (text & Hrun & _). eauto.
Qed.

(** C1, amended. For every mapping: the fields follow the fallback chains
    bpm <- tempo <- "N/A", timesignature <- time_signature <- "N/A",
    keyscale <- key <- scale <- "N/A", duration <- length <- 30.  When the
    duration is not a NaN or infinite float, the integer of a numeric
    duration is within the interpreter's limit on digits and the three
    other fields print, a numeric duration is worded as its truncated
    integer followed by " seconds" and the output is the four lines bpm,
    timesignature, keyscale, duration, each ended by a newline; a string
    field prints as it is and an integer within the limit as its decimal
    numeral.  An infinite duration raises [OverflowError], a NaN duration
    [ValueError], and so does a numeric duration whose integer is beyond
    the limit; the call also raises when one of the three other fields
    does not print.  The canonical four-key mapping gives the canonical
    block. *)
Theorem dict_to_meta_string_contract (m : gmap string pyval) :
  let bpm := first_present m ["bpm"; "tempo"] (PStr "N/A") in
  let timesignature :=
    first_present m ["timesignature"; "time_signature"] (PStr "N/A") in
  let keyscale := first_present m ["keyscale"; "key"; "scale"] (PStr "N/A") in
  let duration := first_present m ["duration"; "length"] (PInt 30) in
  (forall b t k,
     non_finite duration = false ->
     (forall z, duration_integer duration z -> within_limit z) ->
     format bpm = Ok b -> format timesignature = Ok t -> format keyscale = Ok k ->
     exists text,
       duration_text duration text /\
       dict_to_meta_string m =
         Ok ("- bpm: " +:+ b +:+ nl +:+
             "- timesignature: " +:+ t +:+ nl +:+
             "- keyscale: " +:+ k +:+ nl +:+
             "- duration: " +:+ text +:+ nl)) /\
  ((forall s, format (PStr s) = Ok s) /\
   (forall z, within_limit z -> format (PInt z) = Ok (str_of_int z))) /\
  (forall s, duration = PFloat (S754_infinity s) ->
     exists msg, dict_to_meta_string m = Raise (OverflowError msg)) /\
  (duration = PFloat S754_nan ->
     exists msg, dict_to_meta_string m = Raise (ValueError msg)) /\
  (forall z, duration_integer duration z -> ~ within_limit z ->
     exists msg, dict_to_meta_string m = Raise (ValueError msg)) /\
  (forall e,
     format bpm = Raise e \/ format timesignature = Raise e \/
     format keyscale = Raise e ->
     exists e', dict_to_meta_string m = Raise e') /\
  dict_to_meta_string Sample.canonical_meta =
    Ok ("- bpm: 120" +:+ nl +:+
        "- timesignature: 4/4" +:+ nl +:+
        "- keyscale: C major" +:+ nl +:+
        "- duration: 30 seconds" +:+ nl).
Proof.
  intros bpm timesignature keyscale duration.
  split; [|split; [|split; [|split; [|split; [|split]]]]].
  - intros b t k Hfin Hlim Hb Ht Hk.
    destruct (format_duration_text duration Hfin Hlim) as (text & Hrun & Htext).
    exists text. split; [exact Htext|].
    rewrite dict_to_meta_string_resolved.
    fold duration bpm timesignature keyscale.
    by rewrite Hrun, Hb, Ht, Hk.
  - split; [done|]. intros z Hz. by apply PyFacts.str_int_within.
  - intros s Hs. rewrite dict_to_meta_string_resolved. fold duration.
    rewrite Hs. simpl. eauto.
  - intros Hs. rewrite dict_to_meta_string_resolved. fold duration.
    rewrite Hs. simpl. eauto.
  - intros z Hz Hlim. rewrite dict_to_meta_string_resolved. fold duration.
    destruct (format_duration_beyond duration z Hz Hlim) as [msg ->].
    simpl. eauto.
  - intros e He. rewrite dict_to_meta_string_resolved.
    fold duration bpm timesignature keyscale.
    destruct (format_duration duration) as [text|e1]; simpl; [|eauto].
    destruct (format bpm) as [b|e2]; simpl; [|eauto].
    destruct (format timesignature) as [t|e3]; simpl; [|eauto].
    destruct (format keyscale) as [k|e4]; simpl; [|eauto].
    by destruct He as [?|[?|?]].
  - reflexivity.
Qed.


End WithBuiltins.

Lemma dict_to_meta_string_contract_witness :
  exists text,
    duration_text (PFloat (S754_finite true 7 (-1))) text /\
    dict_to_meta_string (B := Sample.builtins) Sample.fallback_meta =
      Ok ("- bpm: None" +:+ nl +:+
          "- timesignature: N/A" +:+ nl +:+
          "- keyscale: A minor" +:+ nl +:+
          "- duration: " +:+ text +:+ nl).
Proof.
  refine (proj1 (dict_to_meta_string_contract (B := Sample.builtins)
                   Sample.fallback_meta) "None" "N/A" "A minor"
            eq_refl _ eq_refl eq_refl eq_refl).
  intros z Hz. apply PyFacts.within_limit_short.
  assert (z = (-3)%Z) as ->; [|vm_compute; lia].
  eapply duration_integer_unique; [exact Hz|].
  constructor. exists 3%Z. repeat split; lia.
Defined.


(** C1, as stated, fails on a mapping whose duration is an infinite float:
    the formatter raises and there is no output. *)
Lemma dict_to_meta_string_infinite_duration_counterexample :
  dict_to_meta_string (B := Sample.builtins) Sample.endless_meta =
    Raise (OverflowError "cannot convert float infinity to integer") /\
  ~ exists out, dict_to_meta_string (B := Sample.builtins) Sample.endless_meta = Ok out.
Proof.
  split; [reflexivity|]. intros [out Hout]. discriminate Hout.
Qed.

End MetaStringProofs.

(** *** metadata_builder.py: building the metadata dictionary *)

Module MetaDictProofs.
Import MetadataBuilder Contract.

Section WithBuiltins.
Context {B : Builtins}.

(** The truthiness test on a [str]-typed argument that may be null. *)
Lemma truthy_or_na (o : option string) :
  (if truthy (of_opt_str o) then of_opt_str o else PStr "N/A") = or_na o.
Proof. by destruct o as [[|c s]|]. Qed.

(** The last three assignments do not touch the ["bpm"] entry. *)
Lemma build_metadata_dict_bpm (bpm key_scale time_signature duration : pyval) :
  build_metadata_dict bpm key_scale time_signature duration !! "bpm" =
    Some match bpm with
         | PNone => PStr "N/A"
         | PStr s =>
             match int_of_str s with
             | Some z => PInt z
             | None => PStr "N/A"
             end
         | _ => bpm
         end.
Proof.
  unfold build_metadata_dict.
  destruct duration; destruct bpm; try destruct (int_of_str _);
    by simplify_map_eq.
Qed.

Lemma build_metadata_dict_keyscale (bpm key_scale time_signature duration : pyval) :
  build_metadata_dict bpm key_scale time_signature duration !! "keyscale" =
    Some (if truthy key_scale then key_scale else PStr "N/A").
Proof.
  unfold build_metadata_dict. destruct duration; by simplify_map_eq.
Qed.

Lemma build_metadata_dict_timesignature
    (bpm key_scale time_signature duration : pyval) :
  build_metadata_dict bpm key_scale time_signature duration !! "timesignature" =
    Some (if truthy time_signature then time_signature else PStr "N/A").
Proof.
  unfold build_metadata_dict. destruct duration; by simplify_map_eq.
Qed.

Lemma build_metadata_dict_duration (bpm key_scale time_signature duration : pyval) :
  build_metadata_dict bpm key_scale time_signature duration !! "duration" =
    Some match duration with
         | PNone => PInt 30
         | _ => duration
         end.
Proof.
  unfold build_metadata_dict. destruct duration; by simplify_map_eq.
Qed.

Lemma build_metadata_dict_dom (bpm key_scale time_signature duration : pyval) :
  dom (build_metadata_dict bpm key_scale time_signature duration) =
    ({[ "bpm"; "keyscale"; "timesignature"; "duration" ]} : gset string).
Proof.
  unfold build_metadata_dict.
  destruct duration; destruct bpm; try destruct (int_of_str _);
    rewrite !dom_insert_L, dom_empty_L; set_solver.
Qed.

(** C8. In the dictionary [build_metadata_dict] returns: a null bpm is
    "N/A"; a string bpm is the integer it parses to, or "N/A" when it does
    not parse; any other bpm is stored as it is; [key_scale] and
    [time_signature] are "N/A" when empty or null and stored as they are
    otherwise; a null duration is 30 and any other duration is stored as it
    is. *)
Theorem build_metadata_dict_contract
    (bpm duration : pyval) (key_scale time_signature : option string) :
  let metadata :=
    build_metadata_dict bpm (of_opt_str key_scale) (of_opt_str time_signature)
      duration in
  (bpm = PNone -> metadata !! "bpm" = Some (PStr "N/A")) /\
  (forall s z, bpm = PStr s -> int_of_str s = Some z ->
     metadata !! "bpm" = Some (PInt z)) /\
  (forall s, bpm = PStr s -> int_of_str s = None ->
     metadata !! "bpm" = Some (PStr "N/A")) /\
  (bpm <> PNone -> is_str bpm = false -> metadata !! "bpm" = Some bpm) /\
  (key_scale = None \/ key_scale = Some EmptyString ->
     metadata !! "keyscale" = Some (PStr "N/A")) /\
  (forall s, key_scale = Some s -> s <> EmptyString ->
     metadata !! "keyscale" = Some (PStr s)) /\
  (time_signature = None \/ time_signature = Some EmptyString ->
     metadata !! "timesignature" = Some (PStr "N/A")) /\
  (forall s, time_signature = Some s -> s <> EmptyString ->
     metadata !! "timesignature" = Some (PStr s)) /\
  (duration = PNone -> metadata !! "duration" = Some (PInt 30)) /\
  (duration <> PNone -> metadata !! "duration" = Some duration) /\
  dom metadata = ({[ "bpm"; "keyscale"; "timesignature"; "duration" ]} : gset string).
Proof.
  intros metadata. subst metadata.
  rewrite build_metadata_dict_bpm, build_metadata_dict_keyscale,
    build_metadata_dict_timesignature, build_metadata_dict_duration,
    build_metadata_dict_dom, !truthy_or_na.
  repeat split.
  - by intros ->.
  - intros s z -> Hz. by rewrite Hz.
  - intros s -> Hs. by rewrite Hs.
  - intros Hnone Hstr. by destruct bpm.
  - by intros [->| ->].
  - intros s -> Hs. by destruct s.
  - by intros [->| ->].
  - intros s -> Hs. by destruct s.
  - by intros ->.
  - intros Hnone. by destruct duration.
Qed.

End WithBuiltins.

End MetaDictProofs.

(** *** metadata_builder.py: captions and languages *)

Module CaptionProofs.
Import MetadataBuilder Contract.

Lemma extract_loop_length captions vocal_languages metas : forall i pc pl,
  length (extract_loop captions vocal_languages i metas pc pl).1 =
    (length pc + length metas)%nat /\
  length (extract_loop captions vocal_languages i metas pc pl).2 =
    (length pl + length metas)%nat.
Proof.
  induction metas as [|meta rest IH]; intros i pc pl; simpl.
  - split; lia.
  - destruct (extract_one captions vocal_languages i meta) as [caption language].
    destruct (IH (S i) (pc ++ [caption]) (pl ++ [language])) as [Hc Hl].
    rewrite Hc, Hl, !length_app. simpl. split; lia.
Qed.

(** What has been appended stays where it is. *)
Lemma extract_loop_prefix captions vocal_languages metas : forall i pc pl j,
  (j < length pc -> (extract_loop captions vocal_languages i metas pc pl).1 !! j = pc !! j) /\
  (j < length pl -> (extract_loop captions vocal_languages i metas pc pl).2 !! j = pl !! j).
Proof.
  induction metas as [|meta rest IH]; intros i pc pl j; simpl; [done|].
  destruct (extract_one captions vocal_languages i meta) as [caption language].
  destruct (IH (S i) (pc ++ [caption]) (pl ++ [language]) j) as [Hc Hl].
  split; intros Hj.
  - rewrite Hc by (rewrite length_app; lia). by apply lookup_app_l.
  - rewrite Hl by (rewrite length_app; lia). by apply lookup_app_l.
Qed.

(** The loop invariant: the [k]-th remaining item lands [k] places after
    what has been appended, and is the item of index [i + k]. *)
Lemma extract_loop_lookup captions vocal_languages metas : forall i pc pl k meta,
  metas !! k = Some meta ->
  (extract_loop captions vocal_languages i metas pc pl).1 !! (length pc + k)%nat =
    Some (extract_one captions vocal_languages (i + k) meta).1 /\
  (extract_loop captions vocal_languages i metas pc pl).2 !! (length pl + k)%nat =
    Some (extract_one captions vocal_languages (i + k) meta).2.
Proof.
  induction metas as [|m rest IH]; intros i pc pl k meta Hk; [done|].
  destruct k as [|k]; simpl in Hk.
  - injection Hk as ->. rewrite !Nat.add_0_r. cbn [extract_loop].
    destruct (extract_one captions vocal_languages i meta) as [caption language].
    destruct (extract_loop_prefix captions vocal_languages rest (S i)
                (pc ++ [caption]) (pl ++ [language]) (length pc)) as [Hc _].
    destruct (extract_loop_prefix captions vocal_languages rest (S i)
                (pc ++ [caption]) (pl ++ [language]) (length pl)) as [_ Hl].
    rewrite Hc, Hl by (rewrite length_app; simpl; lia).
    split; by rewrite list_lookup_middle.
  - cbn [extract_loop].
    destruct (extract_one captions vocal_languages i m) as [caption language].
    destruct (IH (S i) (pc ++ [caption]) (pl ++ [language]) k meta Hk) as [Hc Hl].
    rewrite !length_app in Hc, Hl. simpl in Hc, Hl.
    replace (length pc + S k)%nat with (length pc + 1 + k)%nat by lia.
    replace (length pl + S k)%nat with (length pl + 1 + k)%nat by lia.
    replace (i + S k)%nat with (S i + k)%nat by lia.
    by split.
Qed.

(** On string captions and languages the loop body words the item as the
    contract does: falsy is empty, [== "none"] is the string "none". *)
Lemma extract_one_typed (captions languages : list string) (i : nat) (meta : pyval) :
  extract_one (PStr <$> captions) (PStr <$> languages) i meta =
    (caption_at captions i meta, language_at languages i meta).
Proof.
  unfold extract_one, caption_at, language_at.
  rewrite !list_lookup_fmap.
  destruct (captions !! i) as [c|], (languages !! i) as [l|]; simpl;
    destruct meta; try reflexivity;
    repeat match goal with
           | |- context [?d !! ?k] => destruct (d !! k)
           end;
    try reflexivity;
    try (destruct c as [|? ?]; reflexivity).
Qed.

(** C9. Both outputs of [extract_caption_and_language] are as long as
    [metas].  At each index the caption is [captions[i]] when in range and
    the empty string otherwise, the language is [languages[i]] when in range
    and "none" otherwise; a mapping with a "caption" key replaces the
    caption only when it is empty so far, a mapping with a "language" key
    replaces the language only when it is "none" so far.  An index beyond
    [captions] or [languages] takes the defaults. *)
Theorem extract_caption_and_language_contract
    (metas : list pyval) (captions languages : list string) :
  let out :=
    extract_caption_and_language metas (PStr <$> captions) (PStr <$> languages) in
  length out.1 = length metas /\
  length out.2 = length metas /\
  (forall i meta, metas !! i = Some meta ->
     let caption := default EmptyString (captions !! i) in
     let language := default "none" (languages !! i) in
     out.1 !! i = Some (caption_at captions i meta) /\
     out.2 !! i = Some (language_at languages i meta) /\
     (forall d c, meta = PDict d -> d !! "caption" = Some c -> caption = EmptyString ->
        out.1 !! i = Some c) /\
     ((forall d, meta = PDict d -> d !! "caption" = None \/ caption <> EmptyString) ->
        out.1 !! i = Some (PStr caption)) /\
     (forall d l, meta = PDict d -> d !! "language" = Some l -> language = "none" ->
        out.2 !! i = Some l) /\
     ((forall d, meta = PDict d -> d !! "language" = None \/ language <> "none") ->
        out.2 !! i = Some (PStr language))) /\
  (forall i meta, metas !! i = Some meta ->
     (forall d, meta <> PDict d) ->
     length captions <= i -> length languages <= i ->
     out.1 !! i = Some (PStr "") /\ out.2 !! i = Some (PStr "none")).
Proof.
  intros out. subst out. unfold extract_caption_and_language.
  destruct (extract_loop_length (PStr <$> captions) (PStr <$> languages) metas 0 [] [])
    as [Hlc Hll].
  split; [exact Hlc|]. split; [exact Hll|].
  assert (forall i meta, metas !! i = Some meta ->
            (extract_loop (PStr <$> captions) (PStr <$> languages) 0 metas [] []).1 !! i
              = Some (caption_at captions i meta) /\
            (extract_loop (PStr <$> captions) (PStr <$> languages) 0 metas [] []).2 !! i
              = Some (language_at languages i meta)) as Hat.
  { intros i meta Hi.
    destruct (extract_loop_lookup (PStr <$> captions) (PStr <$> languages)
                metas 0 [] [] i meta Hi) as [Hc Hl].
    simpl in Hc, Hl. rewrite extract_one_typed in Hc, Hl. by split. }
  split.
  - intros i meta Hi. cbv zeta.
    destruct (Hat i meta Hi) as [Hc Hl]. rewrite Hc, Hl.
    split; [done|]. split; [done|]. unfold caption_at, language_at.
    set (caption := default EmptyString (captions !! i)).
    set (language := default "none" (languages !! i)).
    repeat split.
    + intros d c -> Hd ->. by rewrite Hd.
    + intros Hno. destruct meta as [| | | | | | d |]; try done.
      destruct (Hno d eq_refl) as [Hd|Hne]; [by rewrite Hd|].
      destruct (d !! "caption"); [|done].
      by destruct caption.
    + intros d l -> Hd ->. by rewrite Hd.
    + intros Hno. destruct meta as [| | | | | | d |]; try done.
      destruct (Hno d eq_refl) as [Hd|Hne]; [by rewrite Hd|].
      destruct (d !! "language"); [|done].
      by rewrite (proj2 (String.eqb_neq _ _) Hne).
  - intros i meta Hi Hnd Hc Hl.
    destruct (Hat i meta Hi) as [-> ->]. unfold caption_at, language_at.
    rewrite (lookup_ge_None_2 captions i Hc), (lookup_ge_None_2 languages i Hl).
    destruct meta as [| | | | | | d |]; try done. by destruct (Hnd d).
Qed.

End CaptionProofs.

(** *** The definitions at work on closed inputs *)

Module Examples.
Import AudioUtils MetadataBuilder Contract.

(** A mapping without any of the keys gives the default block. *)
Example dict_to_meta_string_empty {B : Builtins} :
  dict_to_meta_string ∅ = Ok create_default_meta.
Proof. reflexivity. Qed.

(** A key that is present shadows its fallbacks even when it holds [None]. *)
Example dict_to_meta_string_none_shadows {B : Builtins} :
  dict_to_meta_string {[ "bpm" := PNone; "tempo" := PInt 90 ]} =
    Ok (meta_block "None" "N/A" "N/A" "30 seconds").
Proof. reflexivity. Qed.

(** [int(-3.5)] is [-3]: truncation, not flooring and not rounding. *)
Example int_of_float_truncates :
  int_of_float (S754_finite true 7 (-1)) = Ok (-3)%Z /\
  int_of_float (S754_finite false 7 (-1)) = Ok 3%Z /\
  int_of_float (S754_finite false 3 2) = Ok 12%Z.
Proof. repeat split. Qed.

Example build_metadata_dict_parses :
  build_metadata_dict (B := Sample.builtins) (PStr " 1_20 ") (PStr "C major") (PStr "") PNone
    = {[ "bpm" := PInt 120; "keyscale" := PStr "C major";
         "timesignature" := PStr "N/A"; "duration" := PInt 30 ]}.
Proof. by vm_compute. Qed.

Example build_metadata_dict_unparsable :
  build_metadata_dict (B := Sample.builtins) (PStr "12.5") PNone (PStr "3/4")
    (PFloat (S754_finite false 5 (-1))) !! "bpm" = Some (PStr "N/A").
Proof. reflexivity. Qed.

(** A negative [batch_size] is no batch size: list repetition gives the
    empty list, which is what comes back. *)
Example normalize_audio_code_hints_negative :
  normalize_audio_code_hints (PStr "a") (-1) = Ok [] /\
  normalize_audio_code_hints PNone (-1) = Ok [].
Proof. split; reflexivity. Qed.

Example normalize_audio_code_hints_mismatch :
  normalize_audio_code_hints (PList [PStr "a"; PStr "b"; PStr "c"]) 2 =
    Raise (ValueError "audio_code_hints length (3) must be 1 or match batch_size (2)").
Proof. reflexivity. Qed.

Example normalize_audio_code_hints_type_error :
  normalize_audio_code_hints (PInt 3) 2 =
    Raise (TypeError "audio_code_hints must be str, list, or None, got <class 'int'>").
Proof. reflexivity. Qed.

Example normalize_instructions_default :
  normalize_instructions (PList []) 2 (PStr "Fill the audio:") =
    Ok [PStr "Fill the audio:"; PStr "Fill the audio:"] /\
  normalize_instructions PNone 2 PNone =
    Raise (ValueError "instructions and default cannot both be None").
Proof. split; reflexivity. Qed.

(** A negative [max_length] is refused when the array is allocated. *)
Example pad_sequences_negative :
  pad_sequences [[1; 2; 3]; [4; 5]]%Z (-1) 0%Z =
    Raise (RuntimeError "Trying to create tensor with negative dimension -1: [2, -1]").
Proof. reflexivity. Qed.

Example pad_sequences_truncates :
  pad_sequences [[1; 2; 3]; [4; 5]]%Z 2 0%Z = Ok [[1; 2]; [4; 5]]%Z.
Proof. reflexivity. Qed.

Example is_silence_boundary :
  is_silence (D := float64) [[FNum (Q2Qc (1 # 2)); FNum (Q2Qc (- 3 # 4))]]
    (S754_finite false 3 (-2)) = Ok false /\
  is_silence (D := float64) [[FNum (Q2Qc (1 # 2)); FNum (Q2Qc (- 3 # 4))]]
    (S754_finite false 7 (-3)) = Ok true /\
  is_silence (D := float32) [[FNum (Q2Qc 0); FNum (Q2Qc 0)]] default_threshold
    = Ok true.
Proof. repeat split. Qed.

(** The same buffer and threshold, silent in float64 and not in float32. *)
Example is_silence_by_dtype :
  is_silence (D := float64) [[Sample.tenth_of_milli_f32]] default_threshold = Ok true /\
  is_silence (D := float32) [[Sample.tenth_of_milli_f32]] default_threshold = Ok false.
Proof. split; reflexivity. Qed.

(** A NaN sample makes the maximum NaN, and no buffer with one is silent. *)
Example is_silence_nan :
  is_silence (D := float32) [[FNum (Q2Qc 0); FNan]] default_threshold = Ok false.
Proof. reflexivity. Qed.

(** On int8 [abs(-128)] is [-128], which is below a threshold of zero. *)
Example is_silence_int8_wraps :
  is_silence (D := int8) [[FNum (Q2Qc (- 128))]] (S754_zero false) = Ok true.
Proof. reflexivity. Qed.

Example normalize_mono :
  normalize_audio_to_stereo_48k Sample.halve [[1; 2; 3; 4]]%Z 96000 default_target_sr
    = Ok [[1; 3]; [1; 3]]%Z.
Proof. reflexivity. Qed.

(** The stand-in resampler refuses what the library refuses. *)
Example normalize_refused :
  (exists e, normalize_audio_to_stereo_48k Sample.halve ([] : tensor Z) 44100 48000
             = Raise e) /\
  (exists e, normalize_audio_to_stereo_48k Sample.halve [[1; 2]]%Z 0 48000 = Raise e).
Proof. split; eexists; reflexivity. Qed.

(** An integer of 4301 digits is not printed under the default limit. *)
Example dict_to_meta_string_overlong :
  exists msg,
    dict_to_meta_string (B := Sample.builtins) Sample.overlong_meta =
      Raise (ValueError msg).
Proof. eexists. vm_compute. reflexivity. Qed.

Example extract_defaults_and_overrides :
  extract_caption_and_language
    [PNone; PDict {[ "caption" := PStr "c"; "language" := PStr "en" ]}; PStr "x"]
    [PStr "a"] [PStr "none"; PStr "fr"]
  = ([PStr "a"; PStr "c"; PStr ""], [PStr "none"; PStr "fr"; PStr "none"]).
Proof. reflexivity. Qed.

End Examples.

(** *** metadata_builder.py: instructions and lyrics *)

Module FormatProofs.
Import MetadataBuilder.

Lemma length_app (s t : string) :
  String.length (s +:+ t) = (String.length s + String.length t)%nat.
Proof. induction s as [|c s IH]; simpl; [done|]. by rewrite IH. Qed.

Lemma app_assoc (s t u : string) : (s +:+ t) +:+ u = s +:+ (t +:+ u).
Proof.
  induction s as [|c s IH]; [done|].
  change (String c ((s +:+ t) +:+ u) = String c (s +:+ (t +:+ u))).
  by rewrite IH.
Qed.

(** [endswith] finds a tail equal to the suffix: the string is something
    followed by the suffix. *)
Lemma endswith_iff (s suffix : string) :
  endswith s suffix = true <-> exists p, s = p +:+ suffix.
Proof.
  split.
  - induction s as [|c s IH]; cbn [endswith].
    + rewrite orb_false_r. intros Heq. apply String.eqb_eq in Heq.
      by exists EmptyString.
    + intros Hor. apply orb_true_iff in Hor as [Heq | Htail].
      * apply String.eqb_eq in Heq. by exists EmptyString.
      * destruct (IH Htail) as [p ->]. by exists (String c p).
  - intros [p ->]. induction p as [|c p IH].
    + change (EmptyString +:+ suffix) with suffix.
      destruct suffix; cbn [endswith]; by rewrite String.eqb_refl.
    + change (String c p +:+ suffix) with (String c (p +:+ suffix)).
      cbn [endswith]. rewrite IH. apply orb_true_r.
Qed.

(** X1. What [format_instruction] returns ends with a colon, and formatting
    it again changes nothing. *)
Theorem format_instruction_colon (instruction : string) :
  (exists p, format_instruction instruction = p +:+ ":") /\
  format_instruction (format_instruction instruction) =
    format_instruction instruction.
Proof.
  assert (endswith (format_instruction instruction) ":" = true) as Hend.
  { unfold format_instruction.
    destruct (endswith instruction ":") eqn:E; simpl; [exact E|].
    apply endswith_iff. by exists instruction. }
  split; [by apply endswith_iff|].
  unfold format_instruction at 1. by rewrite Hend.
Qed.

(** X2. [format_instruction] keeps the instruction as a prefix and adds at
    most the one colon; it returns the instruction unchanged exactly when
    the instruction already ends with a colon. *)
Theorem format_instruction_unchanged_iff (instruction : string) :
  (format_instruction instruction = instruction \/
   format_instruction instruction = instruction +:+ ":") /\
  (format_instruction instruction = instruction <->
   exists p, instruction = p +:+ ":").
Proof.
  unfold format_instruction.
  destruct (endswith instruction ":") eqn:E; simpl.
  - split; [by left|]. split; [|done]. intros _. by apply endswith_iff.
  - split; [by right|]. split.
    + intros Heq. apply (f_equal String.length) in Heq.
      rewrite length_app in Heq. simpl in Heq. lia.
    + intros Hp%endswith_iff. congruence.
Qed.

(** X3. [format_lyrics] returns the lyrics untagged exactly when the lyrics
    are empty, the language is empty, or the language is "none" in any
    letter case. *)
Theorem format_lyrics_untagged_iff (lyrics language : string) :
  format_lyrics lyrics language = lyrics <->
  lyrics = EmptyString \/ language = EmptyString \/ lower language = "none".
Proof.
  unfold format_lyrics.
  destruct lyrics as [|c lyrics]; [by split; [left|]|].
  destruct language as [|d language]; [by split; [right; left|]|].
  destruct (String.eqb_spec (lower (String d language)) "none") as [Heq|Hne]; simpl.
  - split; [by right; right|done].
  - split.
    + intros Heq. apply (f_equal String.length) in Heq.
      change (String "[" (String d (language +:+ "] " +:+ String c lyrics)))
        with ("[" +:+ (String d language +:+ ("] " +:+ String c lyrics))) in Heq.
      rewrite !length_app in Heq. simpl in Heq. lia.
    + by intros [?|[?|?]].
Qed.

(** X4. [format_lyrics] never alters the lyrics: the output is the lyrics
    after a tag that is empty or ["[<language>] "]; the output is empty
    exactly when the lyrics are. *)
Theorem format_lyrics_keeps_lyrics (lyrics language : string) :
  (exists tag, format_lyrics lyrics language = tag +:+ lyrics /\
               (tag = EmptyString \/ tag = "[" +:+ language +:+ "] ")) /\
  (format_lyrics lyrics language = EmptyString <-> lyrics = EmptyString).
Proof.
  unfold format_lyrics.
  destruct lyrics as [|c lyrics].
  { split; [|done]. exists EmptyString. split; [done|by left]. }
  split; [|by destruct language; [|destruct (negb _)]].
  destruct language as [|d language].
  { exists EmptyString. split; [done|by left]. }
  destruct (negb _).
  - exists ("[" +:+ String d language +:+ "] "). split; [|by right].
    by rewrite !app_assoc.
  - exists EmptyString. split; [done|by left].
Qed.

End FormatProofs.

(** *** metadata_builder.py: keys, errors and lists of metadata *)

Module MetaExtraProofs.
Import MetadataBuilder Contract.

Section WithBuiltins.
Context {B : Builtins}.

(** X5. [dict_to_meta_string] returns exactly when the duration the mapping
    resolves to (duration, else length, else 30) is not a NaN or infinite
    float, the integer of a numeric duration is within the interpreter's
    limit on digits, and the bpm, timesignature and keyscale it resolves to
    print; an integer prints exactly when it is within the limit. *)
Theorem dict_to_meta_string_returns_iff (m : gmap string pyval) :
  ((exists text, dict_to_meta_string m = Ok text) <->
   non_finite (resolved_duration m) = false /\
   (forall z, duration_integer (resolved_duration m) z -> within_limit z) /\
   (exists b, format (first_present m ["bpm"; "tempo"] (PStr "N/A")) = Ok b) /\
   (exists t, format (first_present m ["timesignature"; "time_signature"]
                        (PStr "N/A")) = Ok t) /\
   (exists k, format (first_present m ["keyscale"; "key"; "scale"]
                        (PStr "N/A")) = Ok k)) /\
  (forall z, (exists text, format (PInt z) = Ok text) <-> within_limit z).
Proof.
  split.
  - rewrite MetaStringProofs.dict_to_meta_string_resolved.
    fold (resolved_duration m). split.
    + intros [out Hrun].
      destruct (format_duration (resolved_duration m)) as [text|e1] eqn:Hd,
        (format (first_present m ["bpm"; "tempo"] (PStr "N/A"))) as [b|e2],
        (format (first_present m ["timesignature"; "time_signature"]
                   (PStr "N/A"))) as [t|e3],
        (format (first_present m ["keyscale"; "key"; "scale"] (PStr "N/A")))
          as [k|e4];
        try discriminate Hrun.
      destruct (proj1 (MetaStringProofs.format_duration_returns_iff _)
                  (ex_intro _ text Hd)) as [Hfin Hlim].
      eauto 10.
    + intros (Hfin & Hlim & [b ->] & [t ->] & [k ->]).
      destruct (MetaStringProofs.format_duration_text _ Hfin Hlim)
        as (text & -> & _).
      simpl. eauto.
  - intros z. simpl. split.
    + intros [text Hrun]. by apply PyFacts.str_int_inv in Hrun as [_ ?].
    + intros Hz. rewrite (PyFacts.str_int_within z Hz). eauto.
Qed.

(** X6. A key other than the nine the formatter reads has no effect on the
    output: adding it or removing it changes nothing. *)
Theorem dict_to_meta_string_ignores_other_keys
    (m : gmap string pyval) (k : string) (v : pyval) :
  k ∉ meta_keys ->
  dict_to_meta_string (<[k := v]> m) = dict_to_meta_string m /\
  dict_to_meta_string (delete k m) = dict_to_meta_string m.
Proof.
  intros Hk. unfold meta_keys in Hk.
  repeat (apply not_elem_of_cons in Hk as [? Hk]).
  unfold dict_to_meta_string, dict_get.
  split.
  - by rewrite !lookup_insert_ne by done.
  - by rewrite !lookup_delete_ne by done.
Qed.

(** X7. A fallback key is read only when the key before it in the chain is
    missing: once bpm, timesignature, keyscale (or key, for scale) or
    duration is present, whatever is stored under tempo, time_signature,
    key and scale, or length does not reach the output. *)
Theorem dict_to_meta_string_shadowing
    (m : gmap string pyval) (fallback primary : string) (v : pyval) :
  (fallback, primary) ∈ shadowed_by ->
  is_Some (m !! primary) ->
  dict_to_meta_string (<[fallback := v]> m) = dict_to_meta_string m.
Proof.
  intros Hpair [w Hw]. unfold shadowed_by in Hpair.
  unfold dict_to_meta_string, dict_get.
  repeat (apply elem_of_cons in Hpair as [[= -> ->]|Hpair];
          [by simplify_map_eq|]).
  by apply elem_of_nil in Hpair.
Qed.

(** X8. A mapping that holds none of the nine keys is worded as the default
    block, the one [create_default_meta] returns. *)
Theorem dict_to_meta_string_no_keys (m : gmap string pyval) :
  (forall k, k ∈ meta_keys -> m !! k = None) ->
  dict_to_meta_string m = Ok create_default_meta.
Proof.
  intros Hnone. unfold dict_to_meta_string, dict_get.
  rewrite !Hnone by (unfold meta_keys; set_solver).
  reflexivity.
Qed.

(** X9. Formatting what [build_metadata_dict] built never falls back.  When
    the duration given is not a NaN or infinite float, the integer of a
    numeric duration is within the limit on digits and the stored bpm
    prints, [dict_to_meta_string] returns the block of the stored bpm, the
    time signature and the key/scale (or "N/A" when empty or null) and the
    duration given (30 when null). *)
Theorem build_then_format
    (bpm duration : pyval) (key_scale time_signature : option string)
    (stored : pyval) (b : string) :
  build_metadata_dict bpm (of_opt_str key_scale) (of_opt_str time_signature)
    duration !! "bpm" = Some stored ->
  format stored = Ok b ->
  non_finite duration = false ->
  (forall z, duration_integer (or_thirty duration) z -> within_limit z) ->
  exists text,
    duration_text (or_thirty duration) text /\
    dict_to_meta_string
      (build_metadata_dict bpm (of_opt_str key_scale) (of_opt_str time_signature)
         duration) =
      Ok (meta_block b (na_text time_signature) (na_text key_scale) text).
Proof.
  intros Hb Hprint Hfin Hlim.
  set (d := build_metadata_dict bpm (of_opt_str key_scale)
              (of_opt_str time_signature) duration) in *.
  pose proof (MetaDictProofs.build_metadata_dict_keyscale bpm (of_opt_str key_scale)
                (of_opt_str time_signature) duration) as Hk.
  pose proof (MetaDictProofs.build_metadata_dict_timesignature bpm
                (of_opt_str key_scale) (of_opt_str time_signature) duration) as Ht.
  pose proof (MetaDictProofs.build_metadata_dict_duration bpm (of_opt_str key_scale)
                (of_opt_str time_signature) duration) as Hd.
  fold d in Hk, Ht, Hd. rewrite MetaDictProofs.truthy_or_na in Hk, Ht.
  fold (or_thirty duration) in Hd.
  assert (non_finite (or_thirty duration) = false) as Hfin'
    by (by destruct duration).
  destruct (MetaStringProofs.format_duration_text _ Hfin' Hlim)
    as (text & Hrun & Htext).
  exists text. split; [exact Htext|].
  rewrite MetaStringProofs.dict_to_meta_string_resolved.
  rewrite (MetaStringProofs.first_present_head d "bpm" _ _ _ Hb).
  rewrite (MetaStringProofs.first_present_head d "timesignature" _ _ _ Ht).
  rewrite (MetaStringProofs.first_present_head d "keyscale" _ _ _ Hk).
  rewrite (MetaStringProofs.first_present_head d "duration" _ _ _ Hd).
  rewrite Hrun, Hprint. simpl.
  by destruct time_signature as [[|? ?]|], key_scale as [[|? ?]|].
Qed.

(** One item is worded unless it is a mapping the formatter raises on. *)
Lemma parse_meta_returns_iff (meta : pyval) :
  (exists text, parse_meta meta = Ok text) <-> wordable meta.
Proof. destruct meta; simpl; split; eauto. Qed.

(** The loop invariant: the loop returns what it was given followed by the
    texts of the items, in order, and only if every item has a text. *)
Lemma parse_loop_ok (metas : list pyval) : forall parsed out,
  parse_loop metas parsed = Ok out <->
  exists texts, out = parsed ++ texts /\
                Forall2 (fun meta text => parse_meta meta = Ok text) metas texts.
Proof.
  induction metas as [|meta rest IH]; intros parsed out; cbn [parse_loop].
  - split.
    + intros [= <-]. exists []. by rewrite app_nil_r.
    + intros (texts & -> & Hall). apply Forall2_nil_inv_l in Hall as ->.
      by rewrite app_nil_r.
  - destruct (parse_meta meta) as [text|e] eqn:E; simpl.
    + rewrite IH. split.
      * intros (texts & -> & Hall). exists (text :: texts).
        rewrite <- app_assoc. split; [done|]. by constructor.
      * intros (texts & -> & Hall).
        apply Forall2_cons_inv_l in Hall as (t & texts' & Ht & Hall & ->).
        assert (t = text) as -> by congruence.
        exists texts'. by rewrite <- app_assoc.
    + split; [done|]. intros (texts & _ & Hall).
      apply Forall2_cons_inv_l in Hall as (t & _ & Ht & _). congruence.
Qed.

(** X10. When [parse_metas] returns, the output has one text per item, in
    the order of the input: a string is passed through verbatim, a mapping
    is worded by [dict_to_meta_string], and null or a value of any other
    type gives the default block. *)
Theorem parse_metas_items (metas : list pyval) (out : list string) :
  parse_metas metas = Ok out ->
  length out = length metas /\
  forall i meta, metas !! i = Some meta ->
    exists text, out !! i = Some text /\
      (forall s, meta = PStr s -> text = s) /\
      (forall d, meta = PDict d -> dict_to_meta_string d = Ok text) /\
      (is_str meta = false -> (forall d, meta <> PDict d) ->
         text = create_default_meta).
Proof.
  intros Hrun. apply parse_loop_ok in Hrun as (texts & -> & Hall).
  simpl. split; [symmetry; by eapply Forall2_length|].
  intros i meta Hi.
  destruct (Forall2_lookup_l _ _ _ _ _ Hall Hi) as (text & Htext & Hparse).
  exists text. split; [exact Htext|]. repeat split.
  - intros s ->. simpl in Hparse. congruence.
  - intros d ->. exact Hparse.
  - intros Hstr Hdict.
    destruct meta as [| | | | | | d |]; simpl in Hparse, Hstr; congruence.
Qed.

(** X11. [parse_metas] returns exactly when [dict_to_meta_string] returns
    on every mapping of the list; one mapping on which it raises, anywhere
    in the list, makes the whole call raise, and no item of another type
    does. *)
Theorem parse_metas_returns_iff (metas : list pyval) :
  (exists out, parse_metas metas = Ok out) <-> Forall wordable metas.
Proof.
  unfold parse_metas. split.
  - intros [out Hrun]. apply parse_loop_ok in Hrun as (texts & _ & Hall).
    apply Forall_forall. intros meta Hmeta.
    apply list_elem_of_lookup in Hmeta as [i Hi].
    destruct (Forall2_lookup_l _ _ _ _ _ Hall Hi) as (text & _ & Hparse).
    apply parse_meta_returns_iff. eauto.
  - intros Hall.
    assert (exists texts,
              Forall2 (fun meta text => parse_meta meta = Ok text) metas texts)
      as [texts Htexts].
    { induction Hall as [|meta rest Hmeta _ (texts & Htexts)].
      - exists []. constructor.
      - apply parse_meta_returns_iff in Hmeta as [text Htext].
        exists (text :: texts). by constructor. }
    exists texts. apply parse_loop_ok. by exists texts.
Qed.

(** X12. Texts that are already formatted pass through [parse_metas] as
    they are, so parsing the output of [parse_metas] again returns it
    unchanged. *)
Theorem parse_metas_idempotent (metas : list pyval) (out : list string) :
  parse_metas (PStr <$> out) = Ok out /\
  (parse_metas metas = Ok out -> parse_metas (PStr <$> out) = Ok out).
Proof.
  assert (parse_metas (PStr <$> out) = Ok out) as Hid.
  { apply parse_loop_ok. exists out. split; [done|].
    apply Forall2_fmap_l, Forall2_same_length_lookup.
    split; [done|]. intros i s t Hs Ht. simpl. congruence. }
  by split.
Qed.

End WithBuiltins.

Lemma dict_to_meta_string_ignores_other_keys_witness :
  ("caption" ∉ meta_keys) /\
  dict_to_meta_string (B := Sample.builtins)
    (<["caption" := PStr "a song"]> Sample.worded_meta) =
    dict_to_meta_string (B := Sample.builtins) Sample.worded_meta.
Proof.
  assert ("caption" ∉ meta_keys) as Hk.
  { unfold meta_keys. intros Hin.
    repeat (apply elem_of_cons in Hin as [Hin|Hin]; [discriminate Hin|]).
    by apply elem_of_nil in Hin. }
  split; [exact Hk|].
  exact (proj1 (dict_to_meta_string_ignores_other_keys (B := Sample.builtins)
                  Sample.worded_meta "caption" (PStr "a song") Hk)).
Defined.

Lemma dict_to_meta_string_shadowing_witness :
  ("tempo", "bpm") ∈ shadowed_by /\
  is_Some (Sample.worded_meta !! "bpm") /\
  dict_to_meta_string (B := Sample.builtins)
    (<["tempo" := PInt 140]> Sample.worded_meta) =
    dict_to_meta_string (B := Sample.builtins) Sample.worded_meta.
Proof.
  assert (("tempo", "bpm") ∈ shadowed_by) as Hpair
    by (unfold shadowed_by; apply elem_of_cons; by left).
  assert (is_Some (Sample.worded_meta !! "bpm")) as Hbpm
    by (exists (PInt 90); reflexivity).
  split; [exact Hpair|]. split; [exact Hbpm|].
  exact (dict_to_meta_string_shadowing (B := Sample.builtins)
           Sample.worded_meta "tempo" "bpm" (PInt 140) Hpair Hbpm).
Defined.

Lemma dict_to_meta_string_no_keys_witness :
  (forall k, k ∈ meta_keys -> ({[ "caption" := PStr "a song" ]} : gmap string pyval) !! k = None) /\
  dict_to_meta_string (B := Sample.builtins) {[ "caption" := PStr "a song" ]} =
    Ok create_default_meta.
Proof.
  assert (forall k, k ∈ meta_keys ->
            ({[ "caption" := PStr "a song" ]} : gmap string pyval) !! k = None) as Hnone.
  { intros k Hk. unfold meta_keys in Hk.
    repeat (apply elem_of_cons in Hk as [->|Hk]; [reflexivity|]).
    by apply elem_of_nil in Hk. }
  split; [exact Hnone|].
  exact (dict_to_meta_string_no_keys (B := Sample.builtins) _ Hnone).
Defined.

Lemma build_then_format_witness :
  build_metadata_dict (B := Sample.builtins) (PStr "120") (of_opt_str (Some "C major"))
    (of_opt_str None) (PInt 45) !! "bpm" = Some (PInt 120) /\
  format (B := Sample.builtins) (PInt 120) = Ok "120" /\
  exists text,
    duration_text (PInt 45) text /\
    dict_to_meta_string (B := Sample.builtins)
      (build_metadata_dict (B := Sample.builtins) (PStr "120")
         (of_opt_str (Some "C major")) (of_opt_str None) (PInt 45)) =
      Ok (meta_block "120" "N/A" "C major" text).
Proof.
  split; [reflexivity|]. split; [reflexivity|].
  refine (build_then_format (B := Sample.builtins) (PStr "120") (PInt 45)
            (Some "C major") None (PInt 120) "120" eq_refl eq_refl eq_refl _).
  intros z Hz. inversion Hz; subst.
  apply PyFacts.within_limit_short. vm_compute. lia.
Defined.

Lemma parse_metas_items_witness :
  parse_metas (B := Sample.builtins) [PNone; PStr "as is"; PDict Sample.worded_meta] =
    Ok [create_default_meta; "as is";
        meta_block "90" "N/A" "N/A" "about a minute"] /\
  length [create_default_meta; "as is";
          meta_block "90" "N/A" "N/A" "about a minute"] = 3%nat.
Proof.
  assert (parse_metas (B := Sample.builtins)
            [PNone; PStr "as is"; PDict Sample.worded_meta] =
          Ok [create_default_meta; "as is";
              meta_block "90" "N/A" "N/A" "about a minute"]) as Hrun
    by reflexivity.
  split; [exact Hrun|].
  exact (proj1 (parse_metas_items (B := Sample.builtins) _ _ Hrun)).
Defined.

End MetaExtraProofs.

(** *** audio_utils.py: edge cases and compositions *)

Module AudioExtraProofs.
Import AudioUtils Contract.




(** The float dtypes have no absolute value below zero, and negation does
    not change an absolute value. *)
Lemma float_abs_nonneg (x : fval) :
  fval_ltb (float_abs x) (FNum (Q2Qc 0)) = false.
Proof.
  destruct x as [|s|q]; simpl; try done.
  apply not_true_is_false. rewrite SilenceProofs.Qltb_lt.
  apply Qle_not_lt, (Qcabs_nonneg q).
Qed.

Lemma float_abs_neg (x : fval) : float_abs (float_neg x) = float_abs x.
Proof. destruct x as [|s|q]; simpl; try done. by rewrite Qcabs_opp. Qed.

(** In a dtype whose absolute values are never below zero, no buffer is
    silent for a threshold that converts to zero or below. *)
Lemma is_silence_nonpositive_cast {D : DType}
    (audio : tensor fval) (threshold : spec_float) :
  (forall x, fval_ltb (dt_promote (dt_abs x)) (FNum (Q2Qc 0)) = false) ->
  fval_leb (dt_cast threshold) (FNum (Q2Qc 0)) = true ->
  is_silence audio threshold <> Ok true.
Proof.
  intros Habs Hle. unfold is_silence.
  destruct (tensor_max (tensor_abs audio)) as [m|e] eqn:Hmax; simpl; [|done].
  intros [= Hlt].
  apply SilenceProofs.tensor_max_is_max in Hmax as [(x & _ & Hx) _].
  pose proof (SilenceProofs.fval_lt_le_trans _ _ _ Hlt Hle) as Hneg.
  rewrite <- Hx, Habs in Hneg. discriminate Hneg.
Qed.

(** X15. In a float dtype, with a threshold of zero or below, no buffer is
    silent, not even one of zeros: the comparison is strict.  (Not so in
    int8, where [abs()] wraps at -128: [Examples.is_silence_int8_wraps].) *)
Theorem is_silence_nonpositive_threshold
    (prec emax : Z) (audio : tensor fval) (threshold : spec_float) :
  (0 < prec)%Z ->
  fval_leb (fval_of_float threshold) (FNum (Q2Qc 0)) = true ->
  is_silence (D := float_dtype prec emax) audio threshold <> Ok true.
Proof.
  intros Hprec Hle. apply is_silence_nonpositive_cast.
  - exact float_abs_nonneg.
  - exact (RoundingProofs.round_float_mono prec emax Hprec threshold
             (S754_zero false) Hle).
Qed.

(** Negating every sample, by a negation that the dtype's [abs()] undoes,
    changes nothing. *)
Lemma is_silence_negated {D : DType}
    (negate : fval -> fval) (audio : tensor fval) (threshold : spec_float) :
  (forall x, dt_abs (negate x) = dt_abs x) ->
  is_silence (map (map negate) audio) threshold = is_silence audio threshold.
Proof.
  intros Hneg. unfold is_silence. f_equal. f_equal. unfold tensor_abs.
  rewrite map_map. apply map_ext. intros row.
  rewrite map_map. apply map_ext. intros x. apply Hneg.
Qed.

(** X16. Inverting the polarity of every sample does not change the
    verdict: in every float dtype, and in any dtype for a negation that
    its [abs()] undoes. *)
Theorem is_silence_polarity (audio : tensor fval) (threshold : spec_float) :
  (forall prec emax,
     is_silence (D := float_dtype prec emax) (map (map float_neg) audio) threshold =
     is_silence (D := float_dtype prec emax) audio threshold) /\
  (forall (D : DType) (negate : fval -> fval),
     (forall x, dt_abs (negate x) = dt_abs x) ->
     is_silence (map (map negate) audio) threshold = is_silence audio threshold).
Proof.
  split.
  - intros prec emax. apply is_silence_negated. exact float_abs_neg.
  - intros D negate. apply is_silence_negated.
Qed.

(** X17. [normalize_audio_to_stereo_48k] only selects and repeats channels:
    every channel of the result is a channel of the buffer the channel step
    starts from (the resampled buffer, or the input when the rates agree).
    At the target rate the result does not depend on the resampler. *)
Theorem normalize_stereo_selects_channels {A}
    (resample resample' : tensor A -> Z -> Z -> result (tensor A))
    (audio : tensor A) (sr target_sr : Z) :
  (forall out c,
     normalize_audio_to_stereo_48k resample audio sr target_sr = Ok out ->
     c ∈ out ->
     exists converted,
       resample_if_needed resample audio sr target_sr = Ok converted /\
       c ∈ converted) /\
  normalize_audio_to_stereo_48k resample audio target_sr target_sr =
    normalize_audio_to_stereo_48k resample' audio target_sr target_sr.
Proof.
  split.
  - intros out c. unfold normalize_audio_to_stereo_48k.
    destruct (resample_if_needed resample audio sr target_sr) as [converted|e];
      simpl; [|done].
    intros [= <-] Hc. exists converted. split; [done|].
    revert Hc. unfold to_stereo. destruct (Nat.eqb _ 1).
    + rewrite PyFacts.list_mul_two, elem_of_app. tauto.
    + destruct (Nat.ltb 2 _); [|done]. apply subseteq_take.
  - by rewrite !StereoProofs.normalize_at_target_rate.
Qed.

(** The length of what [normalize_audio_code_hints] returns. *)
Lemma normalize_audio_code_hints_length (x : pyval) (N : nat) (out : list pyval) :
  normalize_audio_code_hints x (Z.of_nat N) = Ok out -> length out = N.
Proof.
  unfold normalize_audio_code_hints.
  destruct x as [| | | | s | l | |]; try discriminate.
  - intros [= <-]. rewrite PyFacts.list_mul_singleton, length_replicate. lia.
  - intros [= <-]. rewrite PyFacts.list_mul_singleton, length_replicate. lia.
  - destruct l as [|a [|b l]]; cbn [length Nat.eqb].
    + intros [= <-]. rewrite PyFacts.list_mul_singleton, length_replicate. lia.
    + intros [= <-]. rewrite PyFacts.list_mul_singleton, length_replicate. lia.
    + destruct (Z.eqb_spec (Z.of_nat (S (S (length l)))) (Z.of_nat N)) as [Heq|Hne];
        simpl; [|done].
      intros [= <-]. simpl. lia.
Qed.

(** X18. Normalising is idempotent: the list [normalize_audio_code_hints]
    returns for a batch size is returned as it is when normalised again
    for the same batch size. *)
Theorem normalize_audio_code_hints_idempotent (x : pyval) (N : nat) (out : list pyval) :
  normalize_audio_code_hints x (Z.of_nat N) = Ok out ->
  normalize_audio_code_hints (PList out) (Z.of_nat N) = Ok out.
Proof.
  intros Hrun. rewrite <- (normalize_audio_code_hints_length x N out Hrun).
  apply BatchProofs.normalize_audio_code_hints_same_length.
Qed.

(** X19. [normalize_audio_code_hints] invents no value: every element it
    returns is null, the string passed, or an element of the list passed. *)
Theorem normalize_audio_code_hints_elements
    (x : pyval) (N : Z) (out : list pyval) (v : pyval) :
  normalize_audio_code_hints x N = Ok out ->
  v ∈ out ->
  v = PNone \/ (is_str x = true /\ v = x) \/ (exists l, x = PList l /\ v ∈ l).
Proof.
  unfold normalize_audio_code_hints.
  destruct x as [| | | | s | l | |]; try discriminate.
  - intros [= <-]. rewrite PyFacts.list_mul_singleton.
    intros ->%elem_of_replicate_inv. by left.
  - intros [= <-]. rewrite PyFacts.list_mul_singleton.
    intros ->%elem_of_replicate_inv. right. by left.
  - destruct l as [|a [|b l]]; cbn [length Nat.eqb].
    + intros [= <-]. rewrite PyFacts.list_mul_singleton.
      intros ->%elem_of_replicate_inv. by left.
    + intros [= <-]. rewrite PyFacts.list_mul_singleton.
      intros Hv%elem_of_replicate_inv. subst v. right. right.
      exists [a]. split; [done|]. apply elem_of_cons. by left.
    + destruct (negb _); [done|]. intros [= <-] Hv. right. right. eauto.
Qed.

(** The length of what [normalize_instructions] returns. *)
Lemma normalize_instructions_length (x default : pyval) (N : nat) (out : list pyval) :
  normalize_instructions x (Z.of_nat N) default = Ok out -> length out = N.
Proof.
  unfold normalize_instructions.
  destruct x as [| | | | s | l | |]; try discriminate.
  - destruct default; try discriminate; intros [= <-];
      rewrite PyFacts.list_mul_singleton, length_replicate; lia.
  - intros [= <-]. rewrite PyFacts.list_mul_singleton, length_replicate. lia.
  - destruct l as [|a [|b l]]; cbn [length Nat.eqb].
    + destruct default; try discriminate; intros [= <-];
        rewrite PyFacts.list_mul_singleton, length_replicate; lia.
    + intros [= <-]. rewrite PyFacts.list_mul_singleton, length_replicate. lia.
    + destruct (Z.eqb_spec (Z.of_nat (S (S (length l)))) (Z.of_nat N)) as [Heq|Hne];
        simpl; [|done].
      intros [= <-]. simpl. lia.
Qed.

(** X20. For a batch size [N], [normalize_instructions] returns a list of
    exactly [N] elements or raises. *)
Theorem normalize_instructions_length_or_raises (x default : pyval) (N : nat) :
  (exists out, normalize_instructions x (Z.of_nat N) default = Ok out /\
               length out = N) \/
  (exists e, normalize_instructions x (Z.of_nat N) default = Raise e).
Proof.
  destruct (normalize_instructions x (Z.of_nat N) default) as [out|e] eqn:Hrun.
  - left. exists out. split; [done|]. by eapply normalize_instructions_length.
  - right. eauto.
Qed.

(** X21. With a default that is not null, and no null inside a list passed,
    [normalize_instructions] never returns a null element. *)
Theorem normalize_instructions_no_null
    (x default : pyval) (N : Z) (out : list pyval) :
  default <> PNone ->
  (forall l, x = PList l -> PNone ∉ l) ->
  normalize_instructions x N default = Ok out ->
  PNone ∉ out.
Proof.
  intros Hd Hl. unfold normalize_instructions.
  destruct x as [| | | | s | l | |]; try discriminate.
  - destruct default; try done; intros [= <-];
      rewrite PyFacts.list_mul_singleton; by intros ?%elem_of_replicate_inv.
  - intros [= <-]. rewrite PyFacts.list_mul_singleton.
    by intros ?%elem_of_replicate_inv.
  - specialize (Hl l eq_refl).
    destruct l as [|a [|b l]]; cbn [length Nat.eqb].
    + destruct default; try done; intros [= <-];
        rewrite PyFacts.list_mul_singleton; by intros ?%elem_of_replicate_inv.
    + intros [= <-]. rewrite PyFacts.list_mul_singleton.
      intros <-%elem_of_replicate_inv. apply Hl, elem_of_cons. by left.
    + destruct (negb _); [done|]. by intros [= <-].
Qed.

(** X22. For a batch size of at least one, normalising what
    [normalize_instructions] returned gives it back unchanged.  At batch
    size zero it need not: the empty list returned for a string is refused
    when there is no default. *)
Theorem normalize_instructions_idempotent
    (x default : pyval) (N : nat) (out : list pyval) :
  (1 <= N)%nat ->
  normalize_instructions x (Z.of_nat N) default = Ok out ->
  normalize_instructions (PList out) (Z.of_nat N) default = Ok out /\
  normalize_instructions (PStr "a") 0 PNone = Ok [] /\
  normalize_instructions (PList []) 0 PNone =
    Raise (ValueError "Empty instructions list and no default provided").
Proof.
  intros HN Hrun. split; [|by split].
  apply normalize_instructions_length in Hrun. subst N.
  unfold normalize_instructions.
  destruct out as [|a [|b out]]; simpl in HN; [lia| |].
  - simpl. by rewrite PyFacts.list_mul_one.
  - cbn [length Nat.eqb]. by rewrite Z.eqb_refl.
Qed.

(** X23. [pad_sequences] raises [IndexError] on an empty list of sequences
    and, on a list that is not empty, [RuntimeError] on a negative
    [max_length]; so whenever it returns, there is at least one sequence
    and [max_length] is not negative. *)
Theorem pad_sequences_refuses {A}
    (sequences : tensor A) (max_length : Z) (pad_value : A) :
  (sequences = [] ->
   exists msg, pad_sequences sequences max_length pad_value = Raise (IndexError msg)) /\
  (sequences <> [] -> (max_length < 0)%Z ->
   exists msg, pad_sequences sequences max_length pad_value = Raise (RuntimeError msg)) /\
  (forall padded, pad_sequences sequences max_length pad_value = Ok padded ->
   sequences <> [] /\ (0 <= max_length)%Z).
Proof.
  unfold pad_sequences, full.
  destruct sequences as [|s0 rest].
  - split; [eauto|]. split; [done|]. by intros padded.
  - destruct (Z.ltb_spec max_length 0) as [Hneg|Hpos]; simpl.
    + split; [done|]. split; [eauto|]. by intros padded.
    + split; [done|]. split; [intros _ ?; lia|]. by intros padded _.
Qed.

(** X24. Padding loses nothing of a sequence that fits: when
    [len(seq) <= max_length], the first [len(seq)] elements of its row are
    the sequence. *)
Theorem pad_sequences_unpad {A}
    (sequences padded : tensor A) (max_length : nat) (pad_value : A)
    (i : nat) (seq : list A) :
  pad_sequences sequences (Z.of_nat max_length) pad_value = Ok padded ->
  sequences !! i = Some seq ->
  (length seq <= max_length)%nat ->
  exists row, padded !! i = Some row /\ take (length seq) row = seq.
Proof.
  intros Hrun Hseq Hfit.
  assert (sequences <> []) as Hne by (by intros ->).
  destruct (PaddingProofs.pad_sequences_rows sequences max_length pad_value Hne)
    as (padded' & Hrun' & _ & Hrows).
  assert (padded' = padded) as -> by congruence.
  eexists. split; [by apply Hrows|].
  unfold padded_row. rewrite Nat.min_l by done.
  rewrite firstn_all. apply take_app_length.
Qed.

(** X25. Padding is idempotent: padding the returned rows again to the
    same length returns them unchanged. *)
Theorem pad_sequences_idempotent {A}
    (sequences padded : tensor A) (max_length : nat) (pad_value : A) :
  pad_sequences sequences (Z.of_nat max_length) pad_value = Ok padded ->
  pad_sequences padded (Z.of_nat max_length) pad_value = Ok padded.
Proof.
  intros Hrun.
  assert (sequences <> []) as Hne by (by intros ->).
  destruct (PaddingProofs.pad_sequences_rows sequences max_length pad_value Hne)
    as (padded' & Hrun' & Hlen & Hrows).
  assert (padded' = padded) as -> by congruence.
  assert (padded <> []) as Hne'.
  { intros ->. destruct sequences; [done|discriminate Hlen]. }
  destruct (PaddingProofs.pad_sequences_rows padded max_length pad_value Hne')
    as (again & Hagain & Hlen2 & Hrows2).
  rewrite Hagain. f_equal. apply list_eq. intros j.
  destruct (padded !! j) as [row|] eqn:Hrow.
  - rewrite (Hrows2 j row Hrow). f_equal.
    assert (length row = max_length) as Hrowlen.
    { assert (j < length sequences)%nat as Hj
        by (rewrite <- Hlen; by eapply lookup_lt_Some).
      apply lookup_lt_is_Some in Hj as [seq Hseq].
      rewrite (Hrows j seq Hseq) in Hrow. injection Hrow as <-.
      apply PaddingProofs.padded_row_length. }
    unfold padded_row. rewrite Hrowlen, Nat.min_id, Nat.sub_diag.
    rewrite <- Hrowlen, firstn_all. apply app_nil_r.
  - apply lookup_ge_None. apply lookup_ge_None in Hrow. lia.
Qed.

End AudioExtraProofs.

(** *** metadata_builder.py: captions and languages without mappings *)

Module CaptionExtraProofs.
Import MetadataBuilder Contract.

(** An item that is no mapping takes the caption and the language of its
    index, or the defaults. *)
Lemma extract_one_no_mapping (captions vocal_languages : list pyval)
    (i : nat) (meta : pyval) :
  (forall d, meta <> PDict d) ->
  extract_one captions vocal_languages i meta =
    (default (PStr "") (captions !! i), default (PStr "none") (vocal_languages !! i)).
Proof.
  intros Hnd. destruct meta as [| | | | | | d |]; try reflexivity.
  by destruct (Hnd d).
Qed.

(** The first [n] elements of [l], made up to [n] with [dflt]. *)
Lemma lookup_take_pad {A} (l : list A) (dflt : A) (n i : nat) :
  (i < n)%nat ->
  (take n l ++ replicate (n - length l) dflt) !! i = Some (default dflt (l !! i)).
Proof.
  intros Hi. destruct (l !! i) as [x|] eqn:Hx; simpl.
  - apply lookup_app_l_Some. by rewrite lookup_take_lt.
  - apply lookup_ge_None in Hx.
    rewrite lookup_app_r by (rewrite length_take; lia).
    apply lookup_replicate_2. rewrite length_take. lia.
Qed.

(** X26. When no item of [metas] is a mapping,
    [extract_caption_and_language] returns the captions and the languages
    cut or filled to the length of [metas]: missing captions are empty
    strings, missing languages are "none".  With lists as long as [metas]
    both come back unchanged. *)
Theorem extract_without_mappings (metas captions vocal_languages : list pyval) :
  (forall meta d, meta ∈ metas -> meta <> PDict d) ->
  extract_caption_and_language metas captions vocal_languages =
    (take (length metas) captions ++
       replicate (length metas - length captions) (PStr ""),
     take (length metas) vocal_languages ++
       replicate (length metas - length vocal_languages) (PStr "none")) /\
  (length captions = length metas -> length vocal_languages = length metas ->
   extract_caption_and_language metas captions vocal_languages =
     (captions, vocal_languages)).
Proof.
  intros Hnd.
  assert (extract_caption_and_language metas captions vocal_languages =
    (take (length metas) captions ++
       replicate (length metas - length captions) (PStr ""),
     take (length metas) vocal_languages ++
       replicate (length metas - length vocal_languages) (PStr "none"))) as Hgen.
  { unfold extract_caption_and_language.
    destruct (CaptionProofs.extract_loop_length captions vocal_languages metas 0 [] [])
      as [Hlc Hll]. simpl in Hlc, Hll.
    apply injective_projections; simpl; apply list_eq; intros i.
    - destruct (metas !! i) as [meta|] eqn:Hi.
      + destruct (CaptionProofs.extract_loop_lookup captions vocal_languages
                    metas 0 [] [] i meta Hi) as [Hc _].
        simpl in Hc. rewrite Hc, extract_one_no_mapping
          by (intros d; eapply Hnd, list_elem_of_lookup_2, Hi).
        simpl. symmetry. apply lookup_take_pad. by eapply lookup_lt_Some.
      + apply lookup_ge_None in Hi.
        rewrite (lookup_ge_None_2 _ i) by lia. symmetry.
        apply lookup_ge_None. rewrite length_app, length_take, length_replicate. lia.
    - destruct (metas !! i) as [meta|] eqn:Hi.
      + destruct (CaptionProofs.extract_loop_lookup captions vocal_languages
                    metas 0 [] [] i meta Hi) as [_ Hl].
        simpl in Hl. rewrite Hl, extract_one_no_mapping
          by (intros d; eapply Hnd, list_elem_of_lookup_2, Hi).
        simpl. symmetry. apply lookup_take_pad. by eapply lookup_lt_Some.
      + apply lookup_ge_None in Hi.
        rewrite (lookup_ge_None_2 _ i) by lia. symmetry.
        apply lookup_ge_None. rewrite length_app, length_take, length_replicate. lia. }
  split; [exact Hgen|].
  intros Hc Hl. rewrite Hgen, !take_ge by lia.
  replace (length metas - length captions)%nat with 0%nat by lia.
  replace (length metas - length vocal_languages)%nat with 0%nat by lia.
  simpl. by rewrite !app_nil_r.
Qed.

Lemma extract_without_mappings_witness :
  (forall meta d, meta ∈ [PNone; PStr "- bpm: 90"; PInt 3] -> meta <> PDict d) /\
  extract_caption_and_language [PNone; PStr "- bpm: 90"; PInt 3]
    [PStr "a"] [PStr "en"; PStr "fr"; PStr "de"; PStr "it"] =
    ([PStr "a"; PStr ""; PStr ""], [PStr "en"; PStr "fr"; PStr "de"]).
Proof.
  assert (forall meta d, meta ∈ [PNone; PStr "- bpm: 90"; PInt 3] -> meta <> PDict d)
    as Hnd.
  { intros meta d Hin.
    repeat (apply elem_of_cons in Hin as [->|Hin]; [discriminate|]).
    by apply elem_of_nil in Hin. }
  split; [exact Hnd|].
  exact (proj1 (extract_without_mappings [PNone; PStr "- bpm: 90"; PInt 3]
                  [PStr "a"] [PStr "en"; PStr "fr"; PStr "de"; PStr "it"] Hnd)).
Defined.

End CaptionExtraProofs.

(** *** Closed instances of the conditional theorems above *)

Module ExtraWitnesses.
Import AudioUtils MetadataBuilder Contract AudioExtraProofs.


Lemma is_silence_nonpositive_threshold_witness :
  (0 < 24)%Z /\
  fval_leb (fval_of_float (S754_finite true 1 (-1))) (FNum (Q2Qc 0)) = true /\
  is_silence (D := float32) [[FNum (Q2Qc 0); FNum (Q2Qc 0)]]
    (S754_finite true 1 (-1)) <> Ok true.
Proof.
  assert (fval_leb (fval_of_float (S754_finite true 1 (-1))) (FNum (Q2Qc 0)) = true)
    as Hle by reflexivity.
  split; [reflexivity|]. split; [exact Hle|].
  exact (is_silence_nonpositive_threshold 24 128 _ _ eq_refl Hle).
Defined.

Lemma is_silence_polarity_witness :
  is_silence (D := float32)
    (map (map float_neg) [[FNum (Q2Qc (1 # 2)); FInf true]]) default_threshold =
  is_silence (D := float32) [[FNum (Q2Qc (1 # 2)); FInf true]] default_threshold.
Proof.
  exact (proj1 (is_silence_polarity _ _) 24%Z 128%Z).
Defined.

Lemma normalize_audio_code_hints_idempotent_witness :
  normalize_audio_code_hints (PStr "a") (Z.of_nat 3) =
    Ok [PStr "a"; PStr "a"; PStr "a"] /\
  normalize_audio_code_hints (PList [PStr "a"; PStr "a"; PStr "a"]) (Z.of_nat 3) =
    Ok [PStr "a"; PStr "a"; PStr "a"].
Proof.
  assert (normalize_audio_code_hints (PStr "a") (Z.of_nat 3) =
            Ok [PStr "a"; PStr "a"; PStr "a"]) as Hrun by reflexivity.
  split; [exact Hrun|].
  exact (normalize_audio_code_hints_idempotent _ 3 _ Hrun).
Defined.

Lemma normalize_audio_code_hints_elements_witness :
  normalize_audio_code_hints (PList [PStr "a"; PStr "b"]) 2 =
    Ok [PStr "a"; PStr "b"] /\
  PStr "b" ∈ [PStr "a"; PStr "b"] /\
  (PStr "b" = PNone \/
   (is_str (PList [PStr "a"; PStr "b"]) = true /\
    PStr "b" = PList [PStr "a"; PStr "b"]) \/
   (exists l, PList [PStr "a"; PStr "b"] = PList l /\ PStr "b" ∈ l)).
Proof.
  assert (normalize_audio_code_hints (PList [PStr "a"; PStr "b"]) 2 =
            Ok [PStr "a"; PStr "b"]) as Hrun by reflexivity.
  assert (PStr "b" ∈ [PStr "a"; PStr "b"]) as Hin
    by (apply elem_of_cons; right; apply elem_of_cons; by left).
  split; [exact Hrun|]. split; [exact Hin|].
  exact (normalize_audio_code_hints_elements _ 2 _ _ Hrun Hin).
Defined.

Lemma normalize_instructions_no_null_witness :
  PStr "Fill the audio:" <> PNone /\
  (forall l, PList ([] : list pyval) = PList l -> PNone ∉ l) /\
  normalize_instructions (PList []) 2 (PStr "Fill the audio:") =
    Ok [PStr "Fill the audio:"; PStr "Fill the audio:"] /\
  PNone ∉ [PStr "Fill the audio:"; PStr "Fill the audio:"].
Proof.
  assert (PStr "Fill the audio:" <> PNone) as Hd by discriminate.
  assert (forall l, PList ([] : list pyval) = PList l -> PNone ∉ l) as Hl.
  { intros l [= <-]. apply not_elem_of_nil. }
  assert (normalize_instructions (PList []) 2 (PStr "Fill the audio:") =
            Ok [PStr "Fill the audio:"; PStr "Fill the audio:"]) as Hrun
    by reflexivity.
  split; [exact Hd|]. split; [exact Hl|]. split; [exact Hrun|].
  exact (normalize_instructions_no_null _ _ 2 _ Hd Hl Hrun).
Defined.

Lemma normalize_instructions_idempotent_witness :
  (1 <= 2)%nat /\
  normalize_instructions (PList [PStr "x"]) (Z.of_nat 2) PNone =
    Ok [PStr "x"; PStr "x"] /\
  normalize_instructions (PList [PStr "x"; PStr "x"]) (Z.of_nat 2) PNone =
    Ok [PStr "x"; PStr "x"].
Proof.
  assert (1 <= 2)%nat as HN by lia.
  assert (normalize_instructions (PList [PStr "x"]) (Z.of_nat 2) PNone =
            Ok [PStr "x"; PStr "x"]) as Hrun by reflexivity.
  split; [exact HN|]. split; [exact Hrun|].
  exact (proj1 (normalize_instructions_idempotent _ PNone 2 _ HN Hrun)).
Defined.

Lemma pad_sequences_unpad_witness :
  pad_sequences [[1; 2; 3]; [4; 5]]%Z (Z.of_nat 4) 0%Z =
    Ok [[1; 2; 3; 0]; [4; 5; 0; 0]]%Z /\
  [[1; 2; 3]; [4; 5]]%Z !! 1%nat = Some [4; 5]%Z /\
  (length [4; 5]%Z <= 4)%nat /\
  exists row, [[1; 2; 3; 0]; [4; 5; 0; 0]]%Z !! 1%nat = Some row /\
              take (length [4; 5]%Z) row = [4; 5]%Z.
Proof.
  assert (pad_sequences [[1; 2; 3]; [4; 5]]%Z (Z.of_nat 4) 0%Z =
            Ok [[1; 2; 3; 0]; [4; 5; 0; 0]]%Z) as Hrun by reflexivity.
  assert ([[1; 2; 3]; [4; 5]]%Z !! 1%nat = Some [4; 5]%Z) as Hseq by reflexivity.
  assert (length [4; 5]%Z <= 4)%nat as Hfit by (simpl; lia).
  split; [exact Hrun|]. split; [exact Hseq|]. split; [exact Hfit|].
  exact (pad_sequences_unpad _ _ 4 0%Z 1 _ Hrun Hseq Hfit).
Defined.

Lemma pad_sequences_idempotent_witness :
  pad_sequences [[1; 2; 3]; [4; 5]]%Z (Z.of_nat 2) 0%Z = Ok [[1; 2]; [4; 5]]%Z /\
  pad_sequences [[1; 2]; [4; 5]]%Z (Z.of_nat 2) 0%Z = Ok [[1; 2]; [4; 5]]%Z.
Proof.
  assert (pad_sequences [[1; 2; 3]; [4; 5]]%Z (Z.of_nat 2) 0%Z =
            Ok [[1; 2]; [4; 5]]%Z) as Hrun by reflexivity.
  split; [exact Hrun|].
  exact (pad_sequences_idempotent _ _ 2 0%Z Hrun).
Defined.

End ExtraWitnesses.
